(** * stenotype.py: text normalisation, dictionary loading and the practice session

    A shallow embedding of [src/stenotype.py].

    - A Python [str] is a sequence of Unicode code points: [list N].
    - The parsed JSON value returned by [json.load] is the inductive [json];
      an object keeps its entries in file order.
    - A Python [dict] used as a lookup table is a [gmap].
    - [PloverPracticeApp] is the record [App]; every handler is a function
      [App -> App].  [random.choice] takes the index it draws as an argument.
    - Widget labels are only ever written by the handlers, never read, and the
      wall clock only feeds the WPM display; neither is part of the state. *)

From Stdlib Require Import String Ascii ZArith NArith QArith Qminmax Qpower List Lia Lqa.
From stdpp Require Import base option list gmap.

Local Open Scope nat_scope.

(* ===================================================================== *)
(** ** Python strings                                                     *)
(* ===================================================================== *)

Abbreviation pystr := (list N).

(** An ASCII literal as a Python string. *)
Definition py (s : string) : pystr :=
  List.map N_of_ascii (list_ascii_of_string s).

(** [Py_UNICODE_ISSPACE]: the code points [str.strip()], [str.split()] and the
    regular expression class [\s] treat as whitespace. *)
Definition isspace (c : N) : bool :=
  ((9 <=? c) && (c <=? 13) || (28 <=? c) && (c <=? 32)
   || (c =? 133) || (c =? 160) || (c =? 5760)
   || (8192 <=? c) && (c <=? 8202)
   || (c =? 8232) || (c =? 8233) || (c =? 8239) || (c =? 8287)
   || (c =? 12288))%N.

(** [s.lstrip(chars)], [s.rstrip(chars)], [s.strip(chars)], with the character
    set given as a predicate. *)
Fixpoint lstrip_with (p : N -> bool) (s : pystr) : pystr :=
  match s with
  | c :: r => if p c then lstrip_with p r else s
  | [] => []
  end.

Definition rstrip_with (p : N -> bool) (s : pystr) : pystr :=
  rev (lstrip_with p (rev s)).

Definition strip_with (p : N -> bool) (s : pystr) : pystr :=
  rstrip_with p (lstrip_with p s).

(** [s.strip()] *)
Definition strip (s : pystr) : pystr := strip_with isspace s.

(** Does [s] begin with a character that is not whitespace? *)
Definition starts_word (s : pystr) : bool :=
  match s with
  | c :: _ => negb (isspace c)
  | [] => false
  end.

(** [s.split()]: the maximal runs of non-whitespace characters, in order. *)
Fixpoint split (s : pystr) : list pystr :=
  match s with
  | [] => []
  | c :: r =>
      if isspace c then split r
      else if starts_word r then
             match split r with
             | w :: ws => (c :: w) :: ws
             | [] => [[c]]
             end
           else [c] :: split r
  end.

(** [sep.join(ws)] *)
Fixpoint join (sep : pystr) (ws : list pystr) : pystr :=
  match ws with
  | [] => []
  | w :: rest =>
      match rest with
      | [] => w
      | _ :: _ => w ++ sep ++ join sep rest
      end
  end.

(** [normalize_text(s)]: the words of [s.strip().split()] joined by one
    space. *)
Definition normalize_text (s : pystr) : pystr :=
  join [32%N] (split (strip s)).

(** [re.split] on the pattern [\s+]: the pieces between maximal whitespace runs; a run
    at either end leaves an empty piece there. *)
Fixpoint re_split_ws (s : pystr) : list pystr :=
  match s with
  | [] => [[]]
  | c :: r =>
      if isspace c then
        match r with
        | c' :: _ => if isspace c' then re_split_ws r else [] :: re_split_ws r
        | [] => [] :: re_split_ws r
        end
      else
        match re_split_ws r with
        | p :: ps => (c :: p) :: ps
        | [] => [[c]]
        end
  end.

(** [tokenize_source_text(text)] *)
Definition tokenize_source_text (text : pystr) : list pystr :=
  let text := normalize_text text in
  match text with
  | [] => []
  | _ :: _ => re_split_ws text
  end.

(** [s.startswith] of the hash sign, which opens a comment line. *)
Definition starts_with_hash (s : pystr) : bool :=
  match s with
  | c :: _ => (c =? 35)%N
  | [] => false
  end.

(** [load_word_bank(path)], on the lines the file iterator yields. *)
Fixpoint load_word_bank (lines : list pystr) : list pystr :=
  match lines with
  | [] => []
  | line :: rest =>
      let s := strip line in
      match s with
      | [] => load_word_bank rest
      | _ :: _ =>
          if starts_with_hash s then load_word_bank rest
          else s :: load_word_bank rest
      end
  end.

(** The ASCII part of [str.lower()]; code points outside [A-Z] are kept. *)
Definition lower_char (c : N) : N :=
  if ((65 <=? c) && (c <=? 90))%N then (c + 32)%N else c.

Definition lower (s : pystr) : pystr := List.map lower_char s.

(** Membership in the character set that [_hint_for] strips from both ends of
    a word: full stop, comma, exclamation and question mark, semicolon, colon,
    double and single quote, and the three kinds of brackets. *)
Definition is_hint_punct (c : N) : bool :=
  existsb (N.eqb c) (py ".,!?;:" ++ [34%N] ++ py "'()[]{}").

(** [clean] of [_hint_for]: the word stripped of that punctuation, then
    lower-cased. *)
Definition hint_key (word : pystr) : pystr :=
  lower (strip_with is_hint_punct word).

(* ===================================================================== *)
(** ** JSON values and the dictionary loader                              *)
(* ===================================================================== *)

(** What [json.load] returns.  An object is the Python [dict] built from it:
    its entries in insertion order, one per key. *)
#[local] Set Warnings "-register-all".
Inductive json : Type :=
| JNull
| JBool (b : bool)
| JNumber (literal : pystr)
| JString (s : pystr)
| JArray (elements : list json)
| JObject (members : list (pystr * json)).

Inductive result (A : Type) : Type :=
| Ok (a : A)
| ValueError (msg : string).
Arguments Ok {A} a.
Arguments ValueError {A} msg.

(** [isinstance(v, str)] *)
Definition is_str (v : json) : bool :=
  match v with
  | JString _ => true
  | _ => false
  end.

(** [c in s] for a single character [c] *)
Definition contains (c : N) (s : pystr) : bool := existsb (N.eqb c) s.

Definition allowed : pystr :=
  py "ABCDEFGHIJKLMNOPQRSTUVWXYZabcdefghijklmnopqrstuvwxyz-/*0123456789".

(** [looks_like_stroke(s)]: every character allowed, and a slash, a hyphen or a
    star among them. *)
Definition looks_like_stroke (s : pystr) : bool :=
  forallb (fun c => contains c allowed) s
  && (contains 47%N s || contains 45%N s || contains 42%N s).

(** [sum(p(x) for x in l)] for a boolean [p] *)
Definition count_true {A : Type} (p : A -> bool) (l : list A) : nat :=
  length (List.filter p l).

Definition key_strokeish (items : list (pystr * json)) : nat :=
  count_true (fun kv => looks_like_stroke (fst kv)) items.

Definition val_stringish (items : list (pystr * json)) : nat :=
  count_true (fun kv => is_str (snd kv)) items.

(** The test that sends the loader into its inverting branch. *)
Definition inverts (items : list (pystr * json)) : bool :=
  (Nat.max 1 (length items / 4) <=? key_strokeish items)
  && (Nat.max 1 (length items * 3 / 4) <=? val_stringish items).

(** One round of the inverting loop:
    [out.setdefault(t, []).append(stroke)], entries whose value is not a
    string skipped. *)
Definition invert_entry (out : gmap pystr (list pystr)) (kv : pystr * json)
  : gmap pystr (list pystr) :=
  match kv with
  | (stroke, JString translation) =>
      let t := normalize_text translation in
      <[t := default [] (out !! t) ++ [stroke]]> out
  | _ => out
  end.

(** [all(isinstance(x, str) for x in strokes)], returning the strings. *)
Fixpoint all_str (l : list json) : option (list pystr) :=
  match l with
  | [] => Some []
  | JString s :: r =>
      match all_str r with
      | Some ss => Some (s :: ss)
      | None => None
      end
  | _ :: _ => None
  end.

(** The stroke list a value of the translation-keyed shape stands for. *)
Definition strokes_of (v : json) : option (list pystr) :=
  match v with
  | JString s => Some [s]
  | JArray xs => all_str xs
  | _ => None
  end.

(** One round of the direct loop: [out[t] = [strokes]] or [out[t] = strokes],
    other value shapes skipped. *)
Definition direct_entry (out : gmap pystr (list pystr)) (kv : pystr * json)
  : gmap pystr (list pystr) :=
  let t := normalize_text (fst kv) in
  match strokes_of (snd kv) with
  | Some ss => <[t := ss]> out
  | None => out
  end.

(** [load_dictionary_json], on the parsed file. *)
Definition load_dictionary_json (raw : json) : result (gmap pystr (list pystr)) :=
  match raw with
  | JObject items =>
      match items with
      | [] => Ok ∅
      | _ :: _ =>
          if inverts items then Ok (fold_left invert_entry items ∅)
          else Ok (fold_left direct_entry items ∅)
      end
  | _ => ValueError "Dictionary JSON must be an object."
  end.

(* ===================================================================== *)
(** ** The practice session                                               *)
(* ===================================================================== *)

(** [source_mode] only ever holds one of two string constants. *)
Inductive SourceMode : Type := bank_random | quote_seq.

(** The attributes of [PloverPracticeApp] that the handlers read, with the
    contents of the entry box ([var_input]) and of the source text box
    ([txt_source]). *)
Record App : Type := mkApp {
  word_bank : list pystr;
  steno_dict : gmap pystr (list pystr);
  source_mode : SourceMode;
  quote_tokens : list pystr;
  quote_idx : nat;
  _pending_advance : bool;
  current_word : option pystr;
  total_attempts : nat;
  correct_attempts : nat;
  total_correct_chars : nat;
  streak : nat;
  best_streak : nat;
  var_input : pystr;
  txt_source : pystr
}.

Definition set_word_bank (v : list pystr) (s : App) : App :=
  {| word_bank := v;
     steno_dict := steno_dict s;
     source_mode := source_mode s;
     quote_tokens := quote_tokens s;
     quote_idx := quote_idx s;
     _pending_advance := _pending_advance s;
     current_word := current_word s;
     total_attempts := total_attempts s;
     correct_attempts := correct_attempts s;
     total_correct_chars := total_correct_chars s;
     streak := streak s;
     best_streak := best_streak s;
     var_input := var_input s;
     txt_source := txt_source s |}.

Definition set_steno_dict (v : gmap pystr (list pystr)) (s : App) : App :=
  {| word_bank := word_bank s;
     steno_dict := v;
     source_mode := source_mode s;
     quote_tokens := quote_tokens s;
     quote_idx := quote_idx s;
     _pending_advance := _pending_advance s;
     current_word := current_word s;
     total_attempts := total_attempts s;
     correct_attempts := correct_attempts s;
     total_correct_chars := total_correct_chars s;
     streak := streak s;
     best_streak := best_streak s;
     var_input := var_input s;
     txt_source := txt_source s |}.

Definition set_source_mode (v : SourceMode) (s : App) : App :=
  {| word_bank := word_bank s;
     steno_dict := steno_dict s;
     source_mode := v;
     quote_tokens := quote_tokens s;
     quote_idx := quote_idx s;
     _pending_advance := _pending_advance s;
     current_word := current_word s;
     total_attempts := total_attempts s;
     correct_attempts := correct_attempts s;
     total_correct_chars := total_correct_chars s;
     streak := streak s;
     best_streak := best_streak s;
     var_input := var_input s;
     txt_source := txt_source s |}.

Definition set_quote_tokens (v : list pystr) (s : App) : App :=
  {| word_bank := word_bank s;
     steno_dict := steno_dict s;
     source_mode := source_mode s;
     quote_tokens := v;
     quote_idx := quote_idx s;
     _pending_advance := _pending_advance s;
     current_word := current_word s;
     total_attempts := total_attempts s;
     correct_attempts := correct_attempts s;
     total_correct_chars := total_correct_chars s;
     streak := streak s;
     best_streak := best_streak s;
     var_input := var_input s;
     txt_source := txt_source s |}.

Definition set_quote_idx (v : nat) (s : App) : App :=
  {| word_bank := word_bank s;
     steno_dict := steno_dict s;
     source_mode := source_mode s;
     quote_tokens := quote_tokens s;
     quote_idx := v;
     _pending_advance := _pending_advance s;
     current_word := current_word s;
     total_attempts := total_attempts s;
     correct_attempts := correct_attempts s;
     total_correct_chars := total_correct_chars s;
     streak := streak s;
     best_streak := best_streak s;
     var_input := var_input s;
     txt_source := txt_source s |}.

Definition set_pending_advance (v : bool) (s : App) : App :=
  {| word_bank := word_bank s;
     steno_dict := steno_dict s;
     source_mode := source_mode s;
     quote_tokens := quote_tokens s;
     quote_idx := quote_idx s;
     _pending_advance := v;
     current_word := current_word s;
     total_attempts := total_attempts s;
     correct_attempts := correct_attempts s;
     total_correct_chars := total_correct_chars s;
     streak := streak s;
     best_streak := best_streak s;
     var_input := var_input s;
     txt_source := txt_source s |}.

Definition set_current_word (v : option pystr) (s : App) : App :=
  {| word_bank := word_bank s;
     steno_dict := steno_dict s;
     source_mode := source_mode s;
     quote_tokens := quote_tokens s;
     quote_idx := quote_idx s;
     _pending_advance := _pending_advance s;
     current_word := v;
     total_attempts := total_attempts s;
     correct_attempts := correct_attempts s;
     total_correct_chars := total_correct_chars s;
     streak := streak s;
     best_streak := best_streak s;
     var_input := var_input s;
     txt_source := txt_source s |}.

Definition set_total_attempts (v : nat) (s : App) : App :=
  {| word_bank := word_bank s;
     steno_dict := steno_dict s;
     source_mode := source_mode s;
     quote_tokens := quote_tokens s;
     quote_idx := quote_idx s;
     _pending_advance := _pending_advance s;
     current_word := current_word s;
     total_attempts := v;
     correct_attempts := correct_attempts s;
     total_correct_chars := total_correct_chars s;
     streak := streak s;
     best_streak := best_streak s;
     var_input := var_input s;
     txt_source := txt_source s |}.

Definition set_correct_attempts (v : nat) (s : App) : App :=
  {| word_bank := word_bank s;
     steno_dict := steno_dict s;
     source_mode := source_mode s;
     quote_tokens := quote_tokens s;
     quote_idx := quote_idx s;
     _pending_advance := _pending_advance s;
     current_word := current_word s;
     total_attempts := total_attempts s;
     correct_attempts := v;
     total_correct_chars := total_correct_chars s;
     streak := streak s;
     best_streak := best_streak s;
     var_input := var_input s;
     txt_source := txt_source s |}.

Definition set_total_correct_chars (v : nat) (s : App) : App :=
  {| word_bank := word_bank s;
     steno_dict := steno_dict s;
     source_mode := source_mode s;
     quote_tokens := quote_tokens s;
     quote_idx := quote_idx s;
     _pending_advance := _pending_advance s;
     current_word := current_word s;
     total_attempts := total_attempts s;
     correct_attempts := correct_attempts s;
     total_correct_chars := v;
     streak := streak s;
     best_streak := best_streak s;
     var_input := var_input s;
     txt_source := txt_source s |}.

Definition set_streak (v : nat) (s : App) : App :=
  {| word_bank := word_bank s;
     steno_dict := steno_dict s;
     source_mode := source_mode s;
     quote_tokens := quote_tokens s;
     quote_idx := quote_idx s;
     _pending_advance := _pending_advance s;
     current_word := current_word s;
     total_attempts := total_attempts s;
     correct_attempts := correct_attempts s;
     total_correct_chars := total_correct_chars s;
     streak := v;
     best_streak := best_streak s;
     var_input := var_input s;
     txt_source := txt_source s |}.

Definition set_best_streak (v : nat) (s : App) : App :=
  {| word_bank := word_bank s;
     steno_dict := steno_dict s;
     source_mode := source_mode s;
     quote_tokens := quote_tokens s;
     quote_idx := quote_idx s;
     _pending_advance := _pending_advance s;
     current_word := current_word s;
     total_attempts := total_attempts s;
     correct_attempts := correct_attempts s;
     total_correct_chars := total_correct_chars s;
     streak := streak s;
     best_streak := v;
     var_input := var_input s;
     txt_source := txt_source s |}.

Definition set_var_input (v : pystr) (s : App) : App :=
  {| word_bank := word_bank s;
     steno_dict := steno_dict s;
     source_mode := source_mode s;
     quote_tokens := quote_tokens s;
     quote_idx := quote_idx s;
     _pending_advance := _pending_advance s;
     current_word := current_word s;
     total_attempts := total_attempts s;
     correct_attempts := correct_attempts s;
     total_correct_chars := total_correct_chars s;
     streak := streak s;
     best_streak := best_streak s;
     var_input := v;
     txt_source := txt_source s |}.

Definition set_txt_source (v : pystr) (s : App) : App :=
  {| word_bank := word_bank s;
     steno_dict := steno_dict s;
     source_mode := source_mode s;
     quote_tokens := quote_tokens s;
     quote_idx := quote_idx s;
     _pending_advance := _pending_advance s;
     current_word := current_word s;
     total_attempts := total_attempts s;
     correct_attempts := correct_attempts s;
     total_correct_chars := total_correct_chars s;
     streak := streak s;
     best_streak := best_streak s;
     var_input := var_input s;
     txt_source := v |}.

(** Truth value of [self.current_word]: [None] and the empty string are
    false. *)
Definition active_target (s : App) : option pystr :=
  match current_word s with
  | Some (c :: w) => Some (c :: w)
  | _ => None
  end.

(** [_set_current(text)].  Writing the empty string to [var_input] runs the
    write trace [on_text_change]; with an empty buffer that handler returns
    before it touches any attribute (lemma [on_text_change_empty_buffer]). *)
Definition _set_current (text : pystr) (s : App) : App :=
  set_var_input [] (set_current_word (Some text) s).

(** [random.choice(seq)] for a non-empty [seq], drawing index [r mod len]. *)
Definition random_choice (r : nat) (first : pystr) (others : list pystr) : pystr :=
  nth (r mod length (first :: others)) (first :: others) first.

(** [_pick_new_word_from_bank()] *)
Definition _pick_new_word_from_bank (r : nat) (s : App) : App :=
  match word_bank s with
  | [] => set_current_word None s
  | w :: ws => _set_current (random_choice r w ws) s
  end.

(** [_maybe_start()] *)
Definition _maybe_start (r : nat) (s : App) : App :=
  match current_word s, word_bank s with
  | None, _ :: _ => _pick_new_word_from_bank r (set_source_mode bank_random s)
  | _, _ => s
  end.

(** [restart_quote()] *)
Definition restart_quote (s : App) : App :=
  let raw := strip (txt_source s) in
  let s := set_quote_tokens (tokenize_source_text raw) s in
  let s := set_quote_idx 0 s in
  match quote_tokens s with
  | [] => set_current_word None s
  | _ :: _ =>
      match quote_tokens s !! quote_idx s with
      | Some tok => _set_current tok s
      | None => s
      end
  end.

(** [use_quote_mode()] *)
Definition use_quote_mode (s : App) : App :=
  restart_quote (set_source_mode quote_seq s).

(** [use_bank_random()] *)
Definition use_bank_random (r : nat) (s : App) : App :=
  let s := set_source_mode bank_random s in
  match word_bank s with
  | [] => s
  | _ :: _ => _pick_new_word_from_bank r s
  end.

(** [advance_target()] *)
Definition advance_target (r : nat) (s : App) : App :=
  let s := set_pending_advance false s in
  match source_mode s with
  | quote_seq =>
      match quote_tokens s with
      | [] => s
      | _ :: _ =>
          if quote_idx s <? length (quote_tokens s) - 1 then
            let s := set_quote_idx (quote_idx s + 1) s in
            match quote_tokens s !! quote_idx s with
            | Some tok => _set_current tok s
            | None => s
            end
          else set_current_word None s
      end
  | bank_random =>
      match word_bank s with
      | [] => s
      | _ :: _ => _pick_new_word_from_bank r s
      end
  end.

(** [on_next_word()]: the manual skip. *)
Definition on_next_word (r : nat) (s : App) : App :=
  let s := set_pending_advance false s in
  let s := set_streak 0 s in
  match source_mode s with
  | quote_seq =>
      match quote_tokens s with
      | [] => s
      | _ :: _ =>
          if quote_idx s <? length (quote_tokens s) - 1 then
            let s := set_quote_idx (quote_idx s + 1) s in
            match quote_tokens s !! quote_idx s with
            | Some tok => _set_current tok s
            | None => s
            end
          else s
      end
  | bank_random =>
      match word_bank s with
      | [] => s
      | _ :: _ => _pick_new_word_from_bank r s
      end
  end.

(** [_count_correct_and_schedule_advance()]: the correct-attempt transition. *)
Definition _count_correct_and_schedule_advance (r : nat) (s : App) : App :=
  if _pending_advance s then s
  else
    let s := set_pending_advance true s in
    let target := normalize_text (default [] (current_word s)) in
    let s := set_correct_attempts (correct_attempts s + 1) s in
    let s := set_total_attempts (total_attempts s + 1) s in
    let s := set_streak (streak s + 1) s in
    let s := set_best_streak (Nat.max (best_streak s) (streak s)) s in
    let s := set_total_correct_chars (total_correct_chars s + length target) s in
    advance_target r s.

(** [on_submit()]: the Return key. *)
Definition on_submit (r : nat) (s : App) : App :=
  match active_target s with
  | None => s
  | Some word =>
      if _pending_advance s then s
      else
        let typed := normalize_text (var_input s) in
        let target := normalize_text word in
        if decide (typed = target) then _count_correct_and_schedule_advance r s
        else s
  end.

(** [on_text_change()]: the write trace of [var_input].  The prefix and the
    mismatch outcome differ in the feedback label alone. *)
Definition on_text_change (r : nat) (s : App) : App :=
  match active_target s with
  | None => s
  | Some word =>
      let typed := normalize_text (var_input s) in
      let target := normalize_text word in
      match typed with
      | [] => s
      | _ :: _ =>
          if decide (typed = target) then _count_correct_and_schedule_advance r s
          else s
      end
  end.

(** [_reset_session()] *)
Definition _reset_session (r : nat) (s : App) : App :=
  let s := set_pending_advance false s in
  let s := set_current_word None s in
  let s := set_total_attempts 0 s in
  let s := set_correct_attempts 0 s in
  let s := set_total_correct_chars 0 s in
  let s := set_streak 0 s in
  let s := set_best_streak 0 s in
  let s := set_var_input [] s in
  _maybe_start r s.

(** [on_load_word_bank()], once the file dialog has returned the file whose
    lines are [lines]; a bank without usable lines is refused. *)
Definition on_load_word_bank (lines : list pystr) (r : nat) (s : App) : App :=
  match load_word_bank lines with
  | [] => s
  | words => _maybe_start r (set_word_bank words s)
  end.

(** [on_load_dict()], once the file dialog has returned the file parsed as
    [raw]. *)
Definition on_load_dict (raw : json) (s : App) : App :=
  match load_dictionary_json raw with
  | Ok d => set_steno_dict d s
  | ValueError _ => s
  end.

(** [_autoload_last_files()]: [bank] and [dct] are the files the saved
    configuration names, when they exist and can be read. *)
Definition _autoload_last_files (bank : option (list pystr)) (dct : option json)
    (r : nat) (s : App) : App :=
  let s := match bank with
           | Some lines => set_word_bank (load_word_bank lines) s
           | None => s
           end in
  let s := match dct with
           | Some raw =>
               match load_dictionary_json raw with
               | Ok d => set_steno_dict d s
               | ValueError _ => s
               end
           | None => s
           end in
  _maybe_start r s.

(** The attribute values [__init__] assigns. *)
Definition fresh : App :=
  {| word_bank := []; steno_dict := ∅; source_mode := bank_random;
     quote_tokens := []; quote_idx := 0; _pending_advance := false;
     current_word := None;
     total_attempts := 0; correct_attempts := 0; total_correct_chars := 0;
     streak := 0; best_streak := 0;
     var_input := []; txt_source := [] |}.

(** [__init__]: the assignments, [_reset_session()], then
    [_autoload_last_files()]. *)
Definition start (bank : option (list pystr)) (dct : option json) (r : nat) : App :=
  _autoload_last_files bank dct r (_reset_session r fresh).

(** What the user can do to the window. *)
Inductive Event : Type :=
| Edit (buffer : pystr) (r : nat)       (* the entry box now holds [buffer] *)
| Return (r : nat)                      (* Return key *)
| Escape                                (* Escape key *)
| Next (r : nat)                        (* button Next *)
| ResetSession (r : nat)                (* button Reset Session *)
| UseSourceText                         (* button Use Source Text (Sequential) *)
| RestartQuote                          (* button Restart Quote *)
| UseWordBank (r : nat)                 (* button Use Word Bank (Random) *)
| LoadWordBank (lines : list pystr) (r : nat)
| LoadDictionary (raw : json)
| EditSource (text : pystr).            (* the source text box now holds [text] *)

(** The handler each event runs.  Every write to [var_input] is followed by
    its trace [on_text_change]. *)
Definition handle (e : Event) (s : App) : App :=
  match e with
  | Edit buffer r => on_text_change r (set_var_input buffer s)
  | Return r => on_submit r s
  | Escape => on_text_change 0 (set_var_input [] s)
  | Next r => on_next_word r s
  | ResetSession r => _reset_session r s
  | UseSourceText => use_quote_mode s
  | RestartQuote => restart_quote s
  | UseWordBank r => use_bank_random r s
  | LoadWordBank lines r => on_load_word_bank lines r s
  | LoadDictionary raw => on_load_dict raw s
  | EditSource text => set_txt_source text s
  end.

Definition run (events : list Event) (s : App) : App :=
  fold_left (fun s e => handle e s) events s.

(** The states a session can be in. *)
Inductive reachable : App -> Prop :=
| reach_start bank dct r : reachable (start bank dct r)
| reach_handle e s : reachable s -> reachable (handle e s).

(** An explicit restart of the quote. *)
Definition is_restart (e : Event) : bool :=
  match e with
  | UseSourceText | RestartQuote => true
  | _ => false
  end.

(* ===================================================================== *)
(** ** Statistics                                                         *)
(* ===================================================================== *)

(** A finite Python [float] is the rational it denotes.  [binary64 q] rounds
    the rational [q] to the nearest double, ties to the even significand;
    [None] is a result beyond the largest double. *)

(** The integer nearest to [a / b] for [0 < b], ties to even: Python's
    [round] and the rounding of a significand. *)
Definition round_half_even (a b : Z) : Z :=
  let q := (a / b)%Z in
  let r := (a mod b)%Z in
  match (2 * r ?= b)%Z with
  | Lt => q
  | Gt => (q + 1)%Z
  | Eq => if Z.even q then q else (q + 1)%Z
  end.

(** [n / (d * 2^e)] as a fraction of integers. *)
Definition scaled_num (n e : Z) : Z := if (e <? 0)%Z then (n * 2 ^ (- e))%Z else n.
Definition scaled_den (d e : Z) : Z := if (e <? 0)%Z then d else (d * 2 ^ e)%Z.

(** The exponent of the unit in the last place of [n / d], for [0 < n] and
    [0 < d]: the [e] with [2^52 <= n / (d * 2^e) < 2^53], and -1074 in the
    subnormal range. *)
Definition ulp_exponent (n d : Z) : Z :=
  let e0 := (Z.log2 n - Z.log2 d - 52)%Z in
  let e1 := if (scaled_num n e0 <? scaled_den d e0 * 2 ^ 52)%Z
            then (e0 - 1)%Z else e0 in
  Z.max e1 (-1074).

Definition binary64 (q : Q) : option Q :=
  let q := Qred q in
  let n := Z.abs (Qnum q) in
  let d := Zpos (Qden q) in
  if (n =? 0)%Z then Some 0%Q
  else
    let e := ulp_exponent n d in
    let m := round_half_even (scaled_num n e) (scaled_den d e) in
    if (2 ^ 1024 <=? scaled_num m (- e))%Z then None
    else Some (Qred (Z.sgn (Qnum q) * scaled_num m (- e) # Z.to_pos (scaled_den 1 (- e)))).

(** [a / b] on Python integers: the quotient, correctly rounded. *)
Definition int_truediv (a b : Z) : option Q :=
  if (b =? 0)%Z then None else binary64 (a # Z.to_pos b).

(** [x * y] on floats. *)
Definition float_mul (x y : Q) : option Q := binary64 (x * y).

(** [int(round(x))] on a float. *)
Definition round_float (x : Q) : Z := round_half_even (Qnum x) (Zpos (Qden x)).

(** [_compute_accuracy()]; [None] stands for a raised exception. *)
Definition _compute_accuracy (s : App) : option Z :=
  if total_attempts s =? 0 then Some 0%Z
  else
    match int_truediv (Z.of_nat (correct_attempts s)) (Z.of_nat (total_attempts s)) with
    | None => None
    | Some ratio =>
        match float_mul 100 ratio with
        | None => None
        | Some pct => Some (round_float pct)
        end
    end.

(** What the specification gives for the accuracy: the exact quotient
    [100 * correct / total], rounded to the nearest integer. *)
Definition spec_accuracy (correct total : nat) : Z :=
  if total =? 0 then 0%Z
  else round_half_even (100 * Z.of_nat correct) (Z.of_nat total).

(* ===================================================================== *)
(** ** Notions the statements below are phrased in                        *)
(* ===================================================================== *)

(** A word: non-empty and free of whitespace. *)
Definition is_word (w : pystr) : Prop :=
  w <> [] /\ forallb (fun c => negb (isspace c)) w = true.

(** The characters of [s] that are not whitespace, in order. *)
Definition nonspace (s : pystr) : pystr :=
  List.filter (fun c => negb (isspace c)) s.

(** The stroke alphabet in words: an ASCII letter, an ASCII digit, or one of
    the separators hyphen, slash and star. *)
Definition is_letter (c : N) : bool :=
  ((65 <=? c) && (c <=? 90) || (97 <=? c) && (c <=? 122))%N.

Definition is_digit (c : N) : bool := ((48 <=? c) && (c <=? 57))%N.

Definition is_separator (c : N) : bool :=
  ((c =? 45) || (c =? 47) || (c =? 42))%N.

Definition stroke_shaped (k : pystr) : Prop :=
  (forall c, In c k -> is_letter c = true \/ is_digit c = true \/ is_separator c = true)
  /\ (exists c, In c k /\ is_separator c = true).

(** The orientation test with the thresholds read as the fractions [N/4] and
    [3N/4]. *)
Definition fraction_inverts (items : list (pystr * json)) : bool :=
  let n := inject_Z (Z.of_nat (length items)) in
  Qle_bool (Qmax 1 (n / 4)) (inject_Z (Z.of_nat (key_strokeish items)))
  && Qle_bool (Qmax 1 (3 * n / 4)) (inject_Z (Z.of_nat (val_stringish items))).

(** The strokes a stroke-keyed object lists for the translation [t], in the
    order the entries come. *)
Fixpoint strokes_for (t : pystr) (items : list (pystr * json)) : list pystr :=
  match items with
  | [] => []
  | (stroke, JString translation) :: rest =>
      if decide (normalize_text translation = t) then stroke :: strokes_for t rest
      else strokes_for t rest
  | _ :: rest => strokes_for t rest
  end.

(** The translation texts of a parsed dictionary file, as the loader reads
    it: the string values when it inverts, and otherwise the keys whose
    value is a string or a list of strings. *)
Definition translation_texts (raw : json) : list pystr :=
  match raw with
  | JObject items =>
      if inverts items
      then omap (fun kv => match snd kv with
                           | JString translation => Some translation
                           | _ => None
                           end) items
      else omap (fun kv => match strokes_of (snd kv) with
                           | Some _ => Some (fst kv)
                           | None => None
                           end) items
  | _ => []
  end.

(** Does the entry [kv] of a translation-keyed object define strokes for the
    translation [t]? *)
Definition defines (t : pystr) (kv : pystr * json) : Prop :=
  normalize_text (fst kv) = t /\ is_Some (strokes_of (snd kv)).

(** A Target that a non-empty buffer can match. *)
Definition good_target (t : pystr) : Prop := normalize_text t <> [].

(** What holds of the sources of every session: the cursor is inside the
    token sequence, the tokens are words, and neither the bank nor the Target
    normalises to the empty string. *)
Definition sources_ok (s : App) : Prop :=
  (quote_idx s < length (quote_tokens s)
   \/ quote_tokens s = [] /\ quote_idx s = 0)
  /\ Forall good_target (word_bank s)
  /\ Forall is_word (quote_tokens s)
  /\ (forall t, current_word s = Some t -> good_target t).

(** What holds between two events: in addition, the guard is down and every
    counted attempt was a correct one. *)
Definition consistent (s : App) : Prop :=
  _pending_advance s = false
  /\ correct_attempts s = total_attempts s
  /\ sources_ok s.

(** The correct-attempt transition fired once between [s] and [s']: each
    counter went up by one, the character count by the length of the
    normalised Target [t]. *)
Definition counted_once (t : pystr) (s s' : App) : Prop :=
  total_attempts s' = total_attempts s + 1
  /\ correct_attempts s' = correct_attempts s + 1
  /\ streak s' = streak s + 1
  /\ best_streak s' = Nat.max (best_streak s) (streak s + 1)
  /\ total_correct_chars s' = total_correct_chars s + length (normalize_text t).

(** The source of the current mode has a Target to go on with: a token after
    the cursor, or any word in the bank. *)
Definition has_next (s : App) : bool :=
  match source_mode s with
  | quote_seq => quote_idx s + 1 <? length (quote_tokens s)
  | bank_random =>
      match word_bank s with
      | [] => false
      | _ :: _ => true
      end
  end.

(** [s'] shows the Target that follows the one of [s]: the token one past the
    cursor of [s], or a word drawn from the bank. *)
Definition advanced (s s' : App) : Prop :=
  match source_mode s with
  | quote_seq =>
      quote_idx s' = quote_idx s + 1
      /\ is_Some (current_word s')
      /\ current_word s' = quote_tokens s !! (quote_idx s + 1)
  | bank_random =>
      exists w, In w (word_bank s) /\ current_word s' = Some w
  end.

(** The source of the current mode is loaded: quote mode with tokens, or
    bank mode with a bank. *)
Definition source_loaded (s : App) : bool :=
  match source_mode s with
  | quote_seq =>
      match quote_tokens s with
      | [] => false
      | _ :: _ => true
      end
  | bank_random =>
      match word_bank s with
      | [] => false
      | _ :: _ => true
      end
  end.

(** The quote has been typed to its end: quote mode, the cursor on the last
    token, the Target cleared. *)
Definition exhausted (s : App) : Prop :=
  source_mode s = quote_seq
  /\ quote_tokens s <> []
  /\ quote_idx s = length (quote_tokens s) - 1
  /\ current_word s = None.

(** Example inputs. *)

(** The two dictionaries of the docstring of [load_dictionary_json]. *)
Definition translation_keyed : json :=
  JObject [(py "message", JArray [JString (py "PHEPBLG")]);
           (py "cellular", JString (py "KREL/HRER"))].

Definition stroke_keyed : json :=
  JObject [(py "PHEPBLG", JString (py "message"));
           (py "KREL/HRER", JString (py "cellular"))].

(** A stroke-keyed dictionary of five entries, one of whose strokes is
    written with a separator. *)
Definition five_strokes : list (pystr * json) :=
  [(py "S-G", JString (py "something"));
   (py "KAT", JString (py "cat"));
   (py "TKOG", JString (py "dog"));
   (py "PWEURD", JString (py "bird"));
   (py "TPEURB", JString (py "fish"))].

(** A translation-keyed dictionary that spells one translation twice. *)
Definition spelled_twice : list (pystr * json) :=
  [(py "ice cream", JString (py "AOEUS/KRAOEPL"));
   (py "ice  cream", JArray [JString (py "AOEUS"); JString (py "KRAOEPL")])].

(** The mapping both dictionaries of the docstring stand for. *)
Definition docstring_mapping : gmap pystr (list pystr) :=
  <[py "message" := [py "PHEPBLG"]]> (<[py "cellular" := [py "KREL/HRER"]]> ∅).

(** The thresholds of the orientation test, with the floor quotients the code
    computes. *)
Definition floor_thresholds_met (items : list (pystr * json)) : Prop :=
  Nat.max 1 (length items / 4) <= key_strokeish items
  /\ Nat.max 1 (length items * 3 / 4) <= val_stringish items.

(** A fresh window, no saved files: the text [cat] is pasted and Restart Quote
    pressed.  The mode is still the initial [bank_random], the bank empty. *)
Definition restarted_without_bank : App :=
  run [EditSource (py "cat"); RestartQuote] (start None None 0).

(** The same text, entered with Use Source Text: quote mode on its only
    token. *)
Definition one_token_quote : App :=
  run [EditSource (py "cat"); UseSourceText] (start None None 0).

(** Quote mode on the first of two tokens, and after that token was typed. *)
Definition two_token_quote : App :=
  run [EditSource (py "night. rage,"); UseSourceText] (start None None 0).

Definition after_first_token : App :=
  handle (Edit (py "night.") 0) two_token_quote.

(* ===================================================================== *)
(** ** Further notions and parts of the program                           *)
(* ===================================================================== *)

(** No two whitespace characters stand side by side in [s]. *)
Fixpoint single_spaced (s : pystr) : bool :=
  match s with
  | [] => true
  | a :: r =>
      match r with
      | b :: _ => negb (isspace a && isspace b)
      | [] => true
      end && single_spaced r
  end.


(** A line [load_word_bank] keeps, once stripped: not empty, not a comment. *)
Definition usable_line (s : pystr) : bool :=
  match s with
  | [] => false
  | _ :: _ => negb (starts_with_hash s)
  end.

(** The stroke list of the last entry of [items] that defines strokes for the
    translation [t]. *)
Fixpoint last_strokes (t : pystr) (items : list (pystr * json)) : option (list pystr) :=
  match items with
  | [] => None
  | kv :: rest =>
      match last_strokes t rest with
      | Some ss => Some ss
      | None =>
          if decide (normalize_text (fst kv) = t) then strokes_of (snd kv) else None
      end
  end.

Definition no_mapping : pystr := py "(no steno mapping found)".

(** [_hint_for(word, max_hints)], reading the dictionary [steno_dict]: the
    header line, the first [max_hints] strokes joined by a bar, and a bar
    with an ellipsis (U+2026) when there are more.  An absent key and an
    empty stroke list both give the message [no_mapping]. *)
Definition _hint_for (steno_dict : gmap pystr (list pystr)) (word : pystr)
    (max_hints : nat) : pystr :=
  let clean := hint_key word in
  match steno_dict !! clean with
  | Some (first :: others) =>
      let strokes := first :: others in
      let joined := join (py " | ") (take max_hints strokes) in
      let joined :=
        if max_hints <? length strokes then joined ++ py " | " ++ [8230%N]
        else joined in
      py "Steno:" ++ [10%N] ++ joined
  | _ => no_mapping
  end.

Definition is_upper (c : N) : bool := ((65 <=? c) && (c <=? 90))%N.

(** [k] begins or ends with a character that [_hint_for] strips. *)
Definition edge_punct (k : pystr) : bool :=
  match k with c :: _ => is_hint_punct c | [] => false end
  || match rev k with c :: _ => is_hint_punct c | [] => false end.

(** The counters are ordered: streak, best streak, correct attempts, correct
    characters. *)
Definition tally_ok (s : App) : Prop :=
  streak s <= best_streak s
  /\ best_streak s <= correct_attempts s
  /\ correct_attempts s <= total_correct_chars s.

(** Events that leave the bank and the quote alone. *)
Definition keeps_bank (e : Event) : bool :=
  match e with
  | UseSourceText | RestartQuote | LoadWordBank _ _ => false
  | _ => true
  end.

(** Bank mode, showing a word of the bank [bank]. *)
Definition on_bank_word (bank : list pystr) (s : App) : Prop :=
  source_mode s = bank_random
  /\ word_bank s = bank
  /\ exists w, In w bank /\ current_word s = Some w.

(** Quote mode on the token number [k] of [ws], the guard down. *)
Definition on_token (ws : list pystr) (k : nat) (s : App) : Prop :=
  source_mode s = quote_seq
  /\ _pending_advance s = false
  /\ quote_tokens s = ws
  /\ quote_idx s = k
  /\ current_word s = ws !! k.

(** Typing the tokens [ws] one after the other. *)
Definition type_tokens (ws : list pystr) : list Event :=
  List.map (fun w => Edit w 0) ws.

(** [float(n)] for a Python integer, as the operators do when the other
    operand is a float; [None] when the integer is too large. *)
Definition float_of_int (n : Z) : option Q := binary64 (inject_Z n).

(** [x / y] on floats; [None] for a zero divisor or a quotient beyond the
    largest double. *)
Definition float_div (x y : Q) : option Q :=
  if Qeq_bool y 0%Q then None else binary64 (x / y)%Q.

(** [_compute_wpm()], given the value [seconds] of [_elapsed_seconds()];
    [None] stands for a raised exception. *)
Definition _compute_wpm (seconds : Z) (s : App) : option Z :=
  if (seconds <=? 0)%Z then Some 0%Z
  else
    match float_of_int seconds with
    | None => None
    | Some fseconds =>
        match float_div fseconds 60%Q with
        | None => None
        | Some minutes =>
            match float_of_int (Z.of_nat (total_correct_chars s)) with
            | None => None
            | Some fchars =>
                match float_div fchars 5%Q with
                | None => None
                | Some words_equiv =>
                    if Qle_bool minutes 0%Q then Some 0%Z
                    else
                      match float_div words_equiv minutes with
                      | None => None
                      | Some rate => Some (round_float rate)
                      end
                end
            end
        end
    end.

(** The power of two with an integer exponent, as a rational. *)
Definition pow2 (e : Z) : Q := (2 ^ e)%Q.

(** Half the gap between 1 and the next double. *)
Definition unit_roundoff : Q := pow2 (- 53).

(** Quote mode after both tokens of the text were typed. *)
Definition after_both_tokens : App :=
  handle (Edit (py "rage,") 0) after_first_token.

(** Further example inputs. *)

Definition unsupported_values : list (pystr * json) :=
  [(py "cat", JNumber (py "1")); (py "dog", JArray [JString (py "TKOG"); JNull]);
   (py "emu", JObject []); (py "fox", JBool true); (py "gnu", JNull)].

Definition plain_words : list (pystr * json) :=
  [(py "cat", JString (py "KAT")); (py "dog", JString (py "TKOG"))].

Definition hyphenated_words : list (pystr * json) :=
  [(py "e-mail", JString (py "AOE/PHAEUL")); (py "T-shirt", JString (py "TAOE/SHEURT"))].

Definition five_strokes_mapping : gmap pystr (list pystr) :=
  fold_left invert_entry five_strokes ∅.

Definition capital_key_dict : gmap pystr (list pystr) :=
  <[py "Hello!" := [py "H-L"]]> ∅.

(** A translation written with capitals, punctuation and stray spaces. *)
Definition capital_key_file : list (pystr * json) :=
  [(py " Hello,  World! ", JString (py "H-L/WORLD"))].

(** A window started on a saved bank of two words. *)
Definition bank_session : App := start (Some [py "cat"; py "dog"]) None 0.

(** A fresh window with two words pasted into the source box. *)
Definition pasted_quote : App :=
  handle (EditSource (py "night. rage,")) (start None None 0).

(* ===================================================================== *)
(** ** Text normalisation: lemmas                                         *)
(* ===================================================================== *)

Section TextLemmas.

Implicit Types (s t u w : pystr) (ws : list pystr) (c : N).

Lemma lstrip_with_decomp p s :
  exists t, s = t ++ lstrip_with p s /\ forallb p t = true.
Proof.
  induction s as [|c s [t [Hs Ht]]]; simpl.
  - exists []. auto.
  - destruct (p c) eqn:Hc.
    + exists (c :: t). simpl. rewrite Hc, Ht. split; [congruence | reflexivity].
    + exists []. auto.
Qed.

Lemma rstrip_with_decomp p s :
  exists t, s = rstrip_with p s ++ t /\ forallb p t = true.
Proof.
  destruct (lstrip_with_decomp p (rev s)) as [t [Hs Ht]].
  exists (rev t). split.
  - unfold rstrip_with. rewrite <- rev_app_distr, <- Hs. symmetry. apply rev_involutive.
  - rewrite forallb_forall in *. intros x Hx. apply Ht. now apply in_rev.
Qed.

Lemma lstrip_with_head p s c r :
  lstrip_with p s = c :: r -> p c = false.
Proof.
  induction s as [|a s IH]; simpl; [discriminate|].
  destruct (p a) eqn:Ha; [exact IH|]. intros [= <- _]. exact Ha.
Qed.

Lemma split_spaces t : forallb isspace t = true -> split t = [].
Proof.
  induction t as [|c t IH]; simpl; [reflexivity|].
  intros [Hc Ht]%andb_prop. rewrite Hc. auto.
Qed.

Lemma starts_word_spaces t : forallb isspace t = true -> starts_word t = false.
Proof. destruct t as [|c t]; simpl; [reflexivity|]. intros [-> _]%andb_prop. reflexivity. Qed.

Lemma split_app_spaces u t :
  forallb isspace t = true -> split (u ++ t) = split u.
Proof.
  intros Ht. induction u as [|c u IH]; simpl.
  - now apply split_spaces.
  - rewrite IH.
    replace (starts_word (u ++ t)) with (starts_word u); [reflexivity|].
    destruct u; simpl; [symmetry; now apply starts_word_spaces | reflexivity].
Qed.

Lemma split_lstrip s : split (lstrip_with isspace s) = split s.
Proof.
  induction s as [|c s IH]; simpl; [reflexivity|].
  destruct (isspace c) eqn:Hc; [exact IH|]. simpl. now rewrite Hc.
Qed.

Lemma split_strip s : split (strip s) = split s.
Proof.
  unfold strip, strip_with.
  destruct (rstrip_with_decomp isspace (lstrip_with isspace s)) as [t [Hs Ht]].
  rewrite <- (split_lstrip s). rewrite Hs at 2. symmetry. now apply split_app_spaces.
Qed.

Lemma is_word_cons c w :
  isspace c = false -> forallb (fun c => negb (isspace c)) w = true -> is_word (c :: w).
Proof. intros Hc Hw. split; [discriminate|]. simpl. now rewrite Hc, Hw. Qed.

Lemma split_words s : Forall is_word (split s).
Proof.
  induction s as [|c s IH]; simpl; [constructor|].
  destruct (isspace c) eqn:Hc; [exact IH|].
  destruct (starts_word s).
  - destruct (split s) as [|w ws]; inversion IH; subst; constructor; auto.
    + now apply is_word_cons.
    + apply is_word_cons; [exact Hc|]. match goal with H : is_word w |- _ => apply H end.
  - constructor; [now apply is_word_cons | exact IH].
Qed.

Lemma split_word_app w c s :
  is_word w -> isspace c = true -> split (w ++ c :: s) = w :: split s.
Proof.
  intros [Hne Hw] Hc. induction w as [|a w IH]; [congruence|].
  simpl in Hw. apply andb_prop in Hw as [Ha Hw]. apply negb_true_iff in Ha.
  simpl. rewrite Ha. destruct w as [|a' w].
  - simpl. now rewrite Hc.
  - rewrite IH by (auto; discriminate). simpl in Hw |- *.
    apply andb_prop in Hw as [Ha' _]. now rewrite Ha'.
Qed.

Lemma split_word w : is_word w -> split w = [w].
Proof.
  intros [Hne Hw]. induction w as [|a w IH]; [congruence|].
  simpl in Hw. apply andb_prop in Hw as [Ha Hw]. apply negb_true_iff in Ha.
  simpl. rewrite Ha. destruct w as [|a' w]; [reflexivity|].
  rewrite IH by (auto; discriminate). simpl in Hw |- *.
  apply andb_prop in Hw as [Ha' _]. now rewrite Ha'.
Qed.

Lemma split_join ws : Forall is_word ws -> split (join [32%N] ws) = ws.
Proof.
  induction 1 as [|w ws Hw Hws IH]; [reflexivity|].
  simpl. destruct ws as [|w' ws']; [now apply split_word|].
  change ([32%N] ++ join [32%N] (w' :: ws')) with (32%N :: join [32%N] (w' :: ws')).
  rewrite split_word_app by (auto; reflexivity). now rewrite IH.
Qed.

(** Normalising twice is normalising once. *)
Lemma normalize_text_idempotent s :
  normalize_text (normalize_text s) = normalize_text s.
Proof.
  unfold normalize_text. rewrite !split_strip.
  now rewrite split_join by apply split_words.
Qed.

Lemma normalize_text_word w : is_word w -> normalize_text w = w.
Proof.
  intros Hw. unfold normalize_text. rewrite split_strip, split_word by exact Hw. reflexivity.
Qed.

Lemma join_nil_inv ws : Forall is_word ws -> join [32%N] ws = [] -> ws = [].
Proof.
  destruct 1 as [|w ws [Hne _] _]; [reflexivity|].
  simpl. destruct ws; [congruence|]. destruct w; [congruence | discriminate].
Qed.

Lemma join_starts_word ws :
  Forall is_word ws -> ws <> [] -> starts_word (join [32%N] ws) = true.
Proof.
  destruct 1 as [|w ws [Hne Hw] _]; [congruence|]. intros _.
  destruct w as [|a w]; [congruence|].
  simpl in Hw. apply andb_prop in Hw as [Ha _].
  simpl. destruct ws; simpl; exact Ha.
Qed.

Lemma re_split_ws_app w c s :
  forallb (fun c => negb (isspace c)) w = true -> isspace c = true ->
  starts_word s = true ->
  re_split_ws (w ++ c :: s) = w :: re_split_ws s.
Proof.
  intros Hw Hc Hs. induction w as [|a w IH]; simpl.
  - rewrite Hc. destruct s as [|c' s]; [discriminate|].
    simpl in Hs. apply negb_true_iff in Hs. now rewrite Hs.
  - simpl in Hw. apply andb_prop in Hw as [Ha Hw]. apply negb_true_iff in Ha.
    now rewrite Ha, IH.
Qed.

Lemma re_split_ws_word w :
  forallb (fun c => negb (isspace c)) w = true -> re_split_ws w = [w].
Proof.
  induction w as [|a w IH]; simpl; [reflexivity|].
  intros [Ha Hw]%andb_prop. apply negb_true_iff in Ha. now rewrite Ha, IH.
Qed.

Lemma re_split_ws_join ws :
  Forall is_word ws -> ws <> [] -> re_split_ws (join [32%N] ws) = ws.
Proof.
  induction 1 as [|w ws Hw Hws IH]; [congruence|]. intros _.
  simpl. destruct ws as [|w' ws']; [apply re_split_ws_word, Hw|].
  change ([32%N] ++ join [32%N] (w' :: ws')) with (32%N :: join [32%N] (w' :: ws')).
  rewrite re_split_ws_app.
  - now rewrite IH.
  - apply Hw.
  - reflexivity.
  - now apply join_starts_word.
Qed.

(** The tokens of a text are its words. *)
Lemma tokenize_source_text_split s : tokenize_source_text s = split s.
Proof.
  unfold tokenize_source_text, normalize_text. rewrite split_strip.
  pose proof (split_words s) as Hw.
  destruct (join [32%N] (split s)) eqn:Hj.
  - symmetry. now apply join_nil_inv.
  - rewrite <- Hj. apply re_split_ws_join; [exact Hw|].
    intros E. rewrite E in Hj. discriminate.
Qed.

Lemma concat_split s : concat (split s) = nonspace s.
Proof.
  induction s as [|c s IH]; simpl; [reflexivity|].
  destruct (isspace c) eqn:Hc; simpl; [exact IH|].
  rewrite <- IH. destruct (starts_word s); [|reflexivity].
  destruct (split s); reflexivity.
Qed.

Lemma nonspace_app s t : nonspace (s ++ t) = nonspace s ++ nonspace t.
Proof. apply List.filter_app. Qed.

Lemma nonspace_word w :
  forallb (fun c => negb (isspace c)) w = true -> nonspace w = w.
Proof.
  induction w as [|a w IH]; simpl; [reflexivity|].
  intros [Ha Hw]%andb_prop. rewrite Ha. now rewrite IH.
Qed.

Lemma nonspace_join ws : Forall is_word ws -> nonspace (join [32%N] ws) = concat ws.
Proof.
  induction 1 as [|w ws [_ Hw] Hws IH]; [reflexivity|].
  destruct ws as [|w' ws'].
  - simpl. rewrite app_nil_r. now apply nonspace_word.
  - change (join [32%N] (w :: w' :: ws'))
      with (w ++ [32%N] ++ join [32%N] (w' :: ws')).
    rewrite !nonspace_app, IH, nonspace_word by exact Hw. reflexivity.
Qed.

(** Normalising keeps every character that is not whitespace. *)
Lemma nonspace_normalize_text s : nonspace (normalize_text s) = nonspace s.
Proof.
  unfold normalize_text. rewrite split_strip.
  rewrite nonspace_join by apply split_words. apply concat_split.
Qed.

Lemma normalize_text_nil_iff s : normalize_text s = [] <-> split s = [].
Proof.
  unfold normalize_text. rewrite split_strip. split.
  - apply join_nil_inv, split_words.
  - now intros ->.
Qed.

Lemma split_nonnil_of_head c r : isspace c = false -> split (c :: r) <> [].
Proof.
  intros Hc. simpl. rewrite Hc.
  destruct (starts_word r); [destruct (split r)|]; discriminate.
Qed.

(** A stripped, non-empty line still has a word in it. *)
Lemma normalize_text_strip_nonnil s : strip s <> [] -> normalize_text (strip s) <> [].
Proof.
  intros Hne. rewrite normalize_text_nil_iff, split_strip.
  destruct (rstrip_with_decomp isspace (lstrip_with isspace s)) as [t [Hs Ht]].
  fold (strip_with isspace s) in Hs. fold (strip s) in Hs.
  rewrite <- split_lstrip, Hs, split_app_spaces by exact Ht.
  unfold strip, strip_with, rstrip_with in *.
  destruct (lstrip_with isspace (rev (lstrip_with isspace s))) as [|c r] eqn:E;
    [now contradict Hne|].
  apply lstrip_with_head in E.
  simpl. intros Hsplit.
  assert (Hall : forallb isspace (rev r ++ [c]) = true).
  { clear -Hsplit. revert Hsplit. generalize (rev r ++ [c]) as l.
    induction l as [|a l IH]; simpl; [reflexivity|].
    destruct (isspace a) eqn:Ha; [exact IH|].
    destruct (starts_word l); [destruct (split l)|]; discriminate. }
  rewrite forallb_app in Hall. apply andb_prop in Hall as [_ Hc].
  simpl in Hc. rewrite E in Hc. discriminate.
Qed.

End TextLemmas.

(* ===================================================================== *)
(** ** The dictionary loader: lemmas                                      *)
(* ===================================================================== *)

Section LoaderLemmas.

Implicit Types (items : list (pystr * json)) (m : gmap pystr (list pystr)).
Implicit Types (t k : pystr).

Lemma allowed_below_128 : forallb (fun c => (c <? 128)%N) allowed = true.
Proof. vm_compute. reflexivity. Qed.

Lemma allowed_table :
  forallb (fun c => Bool.eqb (contains c allowed)
                      (is_letter c || is_digit c || is_separator c))
          (List.map N.of_nat (seq 0 128)) = true.
Proof. vm_compute. reflexivity. Qed.

Lemma contains_allowed c :
  contains c allowed = is_letter c || is_digit c || is_separator c.
Proof.
  destruct (N.ltb_spec c 128) as [Hlt|Hge].
  - pose proof allowed_table as H. rewrite forallb_forall in H.
    apply Bool.eqb_prop, H. apply in_map_iff. exists (N.to_nat c).
    split; [apply N2Nat.id | apply in_seq; lia].
  - transitivity false.
    + apply not_true_is_false. intros [x [Hx Heq]]%existsb_exists.
      apply N.eqb_eq in Heq. subst x.
      pose proof allowed_below_128 as H. rewrite forallb_forall in H.
      apply H, N.ltb_lt in Hx. lia.
    + unfold is_letter, is_digit, is_separator. symmetry.
      repeat (apply orb_false_intro); try (apply andb_false_intro2);
        try (apply N.leb_gt; lia); apply N.eqb_neq; lia.
Qed.

Lemma contains_In c s : contains c s = true <-> In c s.
Proof.
  unfold contains. rewrite existsb_exists. split.
  - intros [x [Hx ->%N.eqb_eq]]. exact Hx.
  - intros Hc. exists c. split; [exact Hc | apply N.eqb_refl].
Qed.

(** [looks_like_stroke] decides [stroke_shaped]. *)
Lemma looks_like_stroke_spec k : looks_like_stroke k = true <-> stroke_shaped k.
Proof.
  unfold looks_like_stroke, stroke_shaped.
  rewrite andb_true_iff, forallb_forall, !orb_true_iff, !contains_In.
  split; intros [Hall Hsep]; split.
  - intros c Hc. specialize (Hall c Hc). rewrite contains_allowed in Hall.
    rewrite !orb_true_iff in Hall. tauto.
  - destruct Hsep as [[H|H]|H]; eexists; (split; [exact H | reflexivity]).
  - intros c Hc. rewrite contains_allowed, !orb_true_iff. specialize (Hall c Hc). tauto.
  - destruct Hsep as [c [Hc Hs]]. unfold is_separator in Hs.
    rewrite !orb_true_iff, !N.eqb_eq in Hs.
    destruct Hs as [[->| ->]| ->]; tauto.
Qed.

(** The code's test, in arithmetic on the naturals. *)
Lemma inverts_spec items :
  inverts items = true <->
  floor_thresholds_met items.
Proof.
  unfold inverts, floor_thresholds_met. now rewrite andb_true_iff, !Nat.leb_le.
Qed.

(** Inverting accumulates: what was there, then the strokes of [items]. *)
Lemma fold_invert_entry_lookup items m t :
  fold_left invert_entry items m !! t =
  match strokes_for t items with
  | [] => m !! t
  | ss => Some (default [] (m !! t) ++ ss)
  end.
Proof.
  revert m. induction items as [|[stroke v] items IH]; intros m; [reflexivity|].
  cbn [fold_left strokes_for].
  destruct v; try (cbn [invert_entry]; exact (IH m)).
  rewrite IH. cbn [invert_entry]. destruct (decide (normalize_text s = t)) as [->|Hne].
  - rewrite lookup_insert_eq. cbn [default from_option id].
    destruct (strokes_for _ items); [reflexivity|].
    now rewrite <- app_assoc.
  - now rewrite lookup_insert_ne.
Qed.

Lemma fold_direct_entry_lookup_last before kv after m t ss :
  normalize_text (fst kv) = t -> strokes_of (snd kv) = Some ss ->
  Forall (fun kv' => ~ defines t kv') after ->
  fold_left direct_entry (before ++ kv :: after) m !! t = Some ss.
Proof.
  intros Ht Hss Hafter. rewrite fold_left_app. cbn [fold_left].
  generalize (fold_left direct_entry before m) as m0. intros m0.
  assert (Hnow : direct_entry m0 kv !! t = Some ss).
  { unfold direct_entry. rewrite Hss, Ht. apply lookup_insert_eq. }
  revert Hnow. generalize (direct_entry m0 kv) as m1.
  induction Hafter as [|kv' after Hkv' _ IH]; intros m1 Hm1; [exact Hm1|].
  cbn [fold_left]. apply IH. unfold direct_entry.
  destruct (strokes_of (snd kv')) eqn:E; [|exact Hm1].
  rewrite lookup_insert_ne; [exact Hm1|].
  intros Heq. apply Hkv'. split; [exact Heq | rewrite E; eauto].
Qed.

Lemma fold_direct_entry_lookup_none items m t :
  Forall (fun kv' => ~ defines t kv') items ->
  fold_left direct_entry items m !! t = m !! t.
Proof.
  intros H. revert m. induction H as [|kv' items Hkv' _ IH]; intros m; [reflexivity|].
  cbn [fold_left]. rewrite IH. unfold direct_entry.
  destruct (strokes_of (snd kv')) eqn:E; [|reflexivity].
  apply lookup_insert_ne. intros Heq. apply Hkv'. split; [exact Heq | rewrite E; eauto].
Qed.

(** Both loops only ever insert under a normalised key. *)
Lemma fold_invert_entry_keys items m :
  (forall k, is_Some (m !! k) -> normalize_text k = k) ->
  forall k, is_Some (fold_left invert_entry items m !! k) -> normalize_text k = k.
Proof.
  revert m. induction items as [|[stroke v] items IH]; intros m Hm; [exact Hm|].
  cbn [fold_left]. apply IH. destruct v; try exact Hm.
  cbn [invert_entry]. intros k.
  destruct (decide (normalize_text s = k)) as [<-|Hne].
  - intros _. apply normalize_text_idempotent.
  - rewrite lookup_insert_ne by exact Hne. apply Hm.
Qed.

Lemma fold_direct_entry_keys items m :
  (forall k, is_Some (m !! k) -> normalize_text k = k) ->
  forall k, is_Some (fold_left direct_entry items m !! k) -> normalize_text k = k.
Proof.
  revert m. induction items as [|kv items IH]; intros m Hm; [exact Hm|].
  cbn [fold_left]. apply IH. unfold direct_entry.
  destruct (strokes_of (snd kv)); [|exact Hm]. intros k.
  destruct (decide (normalize_text (fst kv) = k)) as [<-|Hne].
  - intros _. apply normalize_text_idempotent.
  - rewrite lookup_insert_ne by exact Hne. apply Hm.
Qed.

Lemma load_dictionary_json_object items :
  load_dictionary_json (JObject items) =
  Ok (if inverts items then fold_left invert_entry items ∅
      else fold_left direct_entry items ∅).
Proof.
  unfold load_dictionary_json.
  destruct items as [|kv items]; [|set (l := kv :: items)]; now destruct (inverts _).
Qed.

End LoaderLemmas.

(* ===================================================================== *)
(** ** The practice session: lemmas                                       *)
(* ===================================================================== *)

(** Open every handler on an explicit record and split on each test it
    makes.  The record is taken apart first, so that the chain of attribute
    updates evaluates instead of growing. *)
Ltac open_handlers :=
  repeat match goal with s : App |- _ => destruct s end;
  cbv beta iota zeta delta
    [handle on_text_change on_submit _count_correct_and_schedule_advance
     on_next_word advance_target _reset_session use_bank_random
     use_quote_mode restart_quote on_load_word_bank on_load_dict
     _maybe_start _pick_new_word_from_bank active_target _set_current
     set_word_bank set_steno_dict set_source_mode
     set_quote_tokens set_quote_idx set_pending_advance set_current_word
     set_total_attempts set_correct_attempts set_total_correct_chars
     set_streak set_best_streak set_var_input set_txt_source
     word_bank steno_dict source_mode quote_tokens
     quote_idx _pending_advance current_word total_attempts correct_attempts
     total_correct_chars streak best_streak var_input txt_source
     sources_ok consistent counted_once has_next advanced
     exhausted source_loaded from_option id] in *.

(** Split on the innermost test first: an attribute, or a condition that
    contains no further test. *)
Ltac split_test x :=
  first
    [ is_var x; destruct x
    | lazymatch x with
      | context [match _ with _ => _ end] => fail
      | _ => destruct x eqn:?
      end ].

Ltac split_tests :=
  repeat (cbv beta iota zeta in *;
          match goal with
          | |- context [match ?x with _ => _ end] => split_test x
          | H : context [match ?x with _ => _ end] |- _ => split_test x
          end);
  cbv beta iota zeta in *.

Ltac by_cases :=
  open_handlers; split_tests; simplify_eq; try done.

(** Turn the boolean tests and the list lookups in the context into
    arithmetic. *)
Ltac arith_tests :=
  repeat match goal with
         | H : (_ <? _) = true |- _ => apply Nat.ltb_lt in H
         | H : (_ <? _) = false |- _ => apply Nat.ltb_ge in H
         | H : (_ =? _) = true |- _ => apply Nat.eqb_eq in H
         | H : (_ =? _) = false |- _ => apply Nat.eqb_neq in H
         | H : _ !! _ = None |- _ => apply lookup_ge_None in H
         | H : _ !! _ = Some _ |- _ => pose proof (lookup_lt_Some _ _ _ H); revert H
         end;
  intros; cbn [length] in *.

Ltac split_conj :=
  repeat match goal with
         | H : _ /\ _ |- _ => destruct H
         | |- _ /\ _ => split
         end.

Section SessionLemmas.

Implicit Types (s : App) (r : nat) (b t : pystr) (e : Event).

Lemma random_choice_In r w ws : In (random_choice r w ws) (w :: ws).
Proof.
  unfold random_choice. apply nth_In. apply Nat.mod_upper_bound. discriminate.
Qed.

Lemma good_target_word w : is_word w -> good_target w.
Proof.
  intros Hw. unfold good_target. rewrite normalize_text_word by exact Hw. apply Hw.
Qed.

Lemma good_target_nonnil t : good_target t -> t <> [].
Proof. intros H ->. now apply H. Qed.

Lemma load_word_bank_good lines : Forall good_target (load_word_bank lines).
Proof.
  induction lines as [|line lines IH]; simpl; [constructor|].
  destruct (strip line) as [|c r] eqn:E; [exact IH|].
  destruct (starts_with_hash (c :: r)); [exact IH|].
  constructor; [|exact IH]. rewrite <- E.
  apply normalize_text_strip_nonnil. now rewrite E.
Qed.

(** With an empty buffer the write trace changes nothing. *)
Lemma on_text_change_empty_buffer r s : var_input s = [] -> on_text_change r s = s.
Proof. intros H. unfold on_text_change. rewrite H. now destruct (active_target s). Qed.

(** In a consistent state the Target that counts is [current_word]. *)
Lemma active_target_consistent s : consistent s -> active_target s = current_word s.
Proof.
  intros (_ & _ & _ & _ & _ & Hcur). unfold active_target.
  destruct (current_word s) as [[|c w]|]; try reflexivity.
  now destruct (Hcur [] eq_refl).
Qed.

Lemma tokens_lookup_good (toks : list pystr) i tok :
  Forall is_word toks -> toks !! i = Some tok -> good_target tok.
Proof. intros H Hl. apply good_target_word. exact (Forall_lookup_1 _ _ _ _ H Hl). Qed.

Lemma bank_choice_good r w ws :
  Forall good_target (w :: ws) -> good_target (random_choice r w ws).
Proof.
  intros H. rewrite Forall_forall in H. apply H, list_elem_of_In, random_choice_In.
Qed.

End SessionLemmas.

Ltac session_tac :=
  by_cases; split_conj;
  try (intros ? [= <-]);
  eauto using tokens_lookup_good, bank_choice_good;
  arith_tests; try lia; try done; try (left; lia).

Ltac flow_tac :=
  by_cases; split_conj; arith_tests; try congruence; try lia.

Section Invariant.

Implicit Types (s : App) (r : nat) (b t : pystr) (e : Event).

Lemma consistent_restart_quote s : consistent s -> consistent (restart_quote s).
Proof.
  intros H. unfold restart_quote. rewrite tokenize_source_text_split.
  pose proof (split_words (strip (txt_source s))) as Hs.
  revert Hs. generalize (split (strip (txt_source s))) as toks. intros toks Hs.
  session_tac.
Qed.

Lemma consistent_set_source_mode m s : consistent s -> consistent (set_source_mode m s).
Proof. intros H. session_tac. Qed.

Lemma consistent_on_load_word_bank lines r s :
  consistent s -> consistent (on_load_word_bank lines r s).
Proof.
  intros H. unfold on_load_word_bank.
  pose proof (load_word_bank_good lines) as Hb.
  revert Hb. generalize (load_word_bank lines) as words. intros words Hb.
  session_tac.
Qed.

Lemma consistent_on_load_dict raw s : consistent s -> consistent (on_load_dict raw s).
Proof.
  intros H. unfold on_load_dict.
  generalize (load_dictionary_json raw) as res. intros res. session_tac.
Qed.

(** Every handler keeps the session consistent. *)
Lemma consistent_handle e s : consistent s -> consistent (handle e s).
Proof.
  intros H. destruct e; cbn [handle].
  - session_tac.
  - session_tac.
  - session_tac.
  - session_tac.
  - session_tac.
  - now apply consistent_restart_quote, consistent_set_source_mode.
  - now apply consistent_restart_quote.
  - session_tac.
  - now apply consistent_on_load_word_bank.
  - now apply consistent_on_load_dict.
  - session_tac.
Qed.

Lemma consistent_start bank dct r : consistent (start bank dct r).
Proof.
  unfold start, _autoload_last_files, fresh.
  destruct bank as [lines|].
  - pose proof (load_word_bank_good lines) as Hb.
    revert Hb. generalize (load_word_bank lines) as words. intros words Hb.
    destruct dct as [raw|]; [destruct (load_dictionary_json raw)|]; session_tac.
  - destruct dct as [raw|]; [destruct (load_dictionary_json raw)|]; session_tac.
Qed.

Lemma reachable_consistent s : reachable s -> consistent s.
Proof.
  induction 1 as [bank dct r|e s _ IH];
    [apply consistent_start | now apply consistent_handle].
Qed.

Lemma reachable_run events s : reachable s -> reachable (run events s).
Proof.
  revert s. induction events as [|e events IH]; intros s H; [exact H|].
  apply IH. now constructor.
Qed.

End Invariant.

(* ===================================================================== *)
(** ** The dictionary loader: results                                     *)
(* ===================================================================== *)

Section Loader.

Implicit Types (items : list (pystr * json)) (m : gmap pystr (list pystr)).
Implicit Types (t k : pystr).

(** C3, as written, fails: with five entries, one stroke-shaped key and five
    string values the loader inverts, although one is below the fraction
    5/4; and inverting gives another mapping than the direct reading. *)
Lemma fraction_thresholds_refuted :
  length five_strokes = 5
  /\ key_strokeish five_strokes = 1
  /\ val_stringish five_strokes = 5
  /\ fraction_inverts five_strokes = false
  /\ load_dictionary_json (JObject five_strokes)
     = Ok (fold_left invert_entry five_strokes ∅)
  /\ fold_left invert_entry five_strokes ∅ <> fold_left direct_entry five_strokes ∅.
Proof.
  repeat split; try (vm_compute; reflexivity).
  intros H. apply (f_equal (fun m => m !! py "cat")) in H.
  vm_compute in H. discriminate H.
Qed.

(** C3, amended: a key is stroke-shaped iff it is written in the stroke
    alphabet (ASCII letters and digits, hyphen, slash, star) with at least
    one separator; the loader inverts iff the stroke-shaped keys number at
    least max(1, floor(N/4)) and the string values at least
    max(1, floor(3N/4)).  When it inverts, a translation maps to the strokes
    of the entries whose normalised value it is, in encounter order;
    otherwise the result is that of the translation-keyed loop. *)
Theorem loader_orientation_floor_thresholds items :
  (forall k, looks_like_stroke k = true <-> stroke_shaped k)
  /\ (floor_thresholds_met items ->
      exists m, load_dictionary_json (JObject items) = Ok m
                /\ forall t, m !! t = match strokes_for t items with
                                      | [] => None
                                      | ss => Some ss
                                      end)
  /\ (~ floor_thresholds_met items ->
      load_dictionary_json (JObject items) = Ok (fold_left direct_entry items ∅)).
Proof.
  split; [exact looks_like_stroke_spec|].
  rewrite load_dictionary_json_object. split.
  - intros He%inverts_spec. rewrite He. eexists. split; [reflexivity|].
    intros t. rewrite fold_invert_entry_lookup, lookup_empty. reflexivity.
  - intros Hne. destruct (inverts items) eqn:E; [|reflexivity].
    now apply inverts_spec in E.
Qed.

Lemma loader_orientation_floor_thresholds_witness :
  floor_thresholds_met five_strokes
  /\ exists m, load_dictionary_json (JObject five_strokes) = Ok m
               /\ forall t, m !! t = match strokes_for t five_strokes with
                                     | [] => None
                                     | ss => Some ss
                                     end.
Proof.
  assert (H : floor_thresholds_met five_strokes) by (vm_compute; split; lia).
  split; [exact H|].
  exact (proj1 (proj2 (loader_orientation_floor_thresholds five_strokes)) H).
Defined.

(** C4: the translation-keyed dictionary of the docstring loads as written,
    with the single stroke wrapped in a list, and the stroke-keyed one loads
    to the same mapping. *)
Theorem docstring_dictionaries_load_alike :
  load_dictionary_json translation_keyed = Ok docstring_mapping
  /\ load_dictionary_json stroke_keyed = Ok docstring_mapping.
Proof. split; vm_compute; reflexivity. Qed.

(** C10: in the translation-keyed branch, when two different raw keys
    normalise to the same translation, the mapping holds the stroke list of
    the later entry alone; the inverting loop, by contrast, keeps the
    strokes of both entries. *)
Theorem direct_branch_last_entry_wins
    before k1 v1 between k2 v2 after ss1 ss2 t :
  inverts (before ++ (k1, v1) :: between ++ (k2, v2) :: after) = false ->
  k1 <> k2 ->
  normalize_text k1 = t -> normalize_text k2 = t ->
  strokes_of v1 = Some ss1 -> strokes_of v2 = Some ss2 ->
  Forall (fun kv => ~ defines t kv) after ->
  (exists m,
      load_dictionary_json
        (JObject (before ++ (k1, v1) :: between ++ (k2, v2) :: after)) = Ok m
      /\ m !! t = Some ss2)
  /\ (forall stroke1 stroke2 tr1 tr2,
        normalize_text tr1 = t -> normalize_text tr2 = t ->
        fold_left invert_entry [(stroke1, JString tr1); (stroke2, JString tr2)] ∅
          !! t = Some [stroke1; stroke2]).
Proof.
  intros Hdir _ _ Hk2 _ Hv2 Hafter. split.
  - rewrite load_dictionary_json_object, Hdir. eexists. split; [reflexivity|].
    change (before ++ (k1, v1) :: between ++ (k2, v2) :: after)
      with (before ++ ((k1, v1) :: between) ++ (k2, v2) :: after).
    rewrite app_assoc. now apply fold_direct_entry_lookup_last.
  - intros stroke1 stroke2 tr1 tr2 H1 H2.
    rewrite fold_invert_entry_lookup, lookup_empty. cbn [strokes_for].
    now rewrite !decide_True.
Qed.

Lemma direct_branch_last_entry_wins_witness :
  (inverts spelled_twice = false
   /\ py "ice cream" <> py "ice  cream"
   /\ normalize_text (py "ice cream") = py "ice cream"
   /\ normalize_text (py "ice  cream") = py "ice cream"
   /\ strokes_of (JString (py "AOEUS/KRAOEPL")) = Some [py "AOEUS/KRAOEPL"]
   /\ strokes_of (JArray [JString (py "AOEUS"); JString (py "KRAOEPL")])
      = Some [py "AOEUS"; py "KRAOEPL"])
  /\ (exists m, load_dictionary_json (JObject spelled_twice) = Ok m
                /\ m !! py "ice cream" = Some [py "AOEUS"; py "KRAOEPL"])
  /\ (forall stroke1 stroke2 tr1 tr2,
        normalize_text tr1 = py "ice cream" -> normalize_text tr2 = py "ice cream" ->
        fold_left invert_entry [(stroke1, JString tr1); (stroke2, JString tr2)] ∅
          !! py "ice cream" = Some [stroke1; stroke2]).
Proof.
  assert (H1 : inverts spelled_twice = false) by (vm_compute; reflexivity).
  assert (H2 : py "ice cream" <> py "ice  cream") by (vm_compute; discriminate).
  assert (H3 : normalize_text (py "ice cream") = py "ice cream")
    by (vm_compute; reflexivity).
  assert (H4 : normalize_text (py "ice  cream") = py "ice cream")
    by (vm_compute; reflexivity).
  assert (H5 : strokes_of (JString (py "AOEUS/KRAOEPL")) = Some [py "AOEUS/KRAOEPL"])
    by reflexivity.
  assert (H6 : strokes_of (JArray [JString (py "AOEUS"); JString (py "KRAOEPL")])
               = Some [py "AOEUS"; py "KRAOEPL"]) by reflexivity.
  split; [tauto|].
  exact (direct_branch_last_entry_wins
           [] (py "ice cream") (JString (py "AOEUS/KRAOEPL"))
           [] (py "ice  cream") (JArray [JString (py "AOEUS"); JString (py "KRAOEPL")])
           [] _ _ (py "ice cream")
           H1 H2 H3 H4 H5 H6 (List.Forall_nil _)).
Defined.

End Loader.

(* ===================================================================== *)
(** ** The practice session: results                                      *)
(* ===================================================================== *)

Section Matching.

Implicit Types (s : App) (r : nat) (b t : pystr) (e : Event).

Lemma normalize_text_of_split b t :
  split b = split t -> normalize_text b = normalize_text t.
Proof. intros H. unfold normalize_text. now rewrite !split_strip, H. Qed.

Lemma normalize_text_nonspace b t :
  normalize_text b = normalize_text t -> nonspace b = nonspace t.
Proof.
  intros H. now rewrite <- (nonspace_normalize_text b), H, nonspace_normalize_text.
Qed.

Lemma active_target_good s t :
  consistent s -> active_target s = Some t -> good_target t.
Proof.
  intros Hs Ht. rewrite (active_target_consistent s Hs) in Ht.
  destruct Hs as (_ & _ & _ & _ & _ & Hcur). now apply Hcur.
Qed.

Lemma on_text_change_hit b t r s :
  consistent s -> active_target s = Some t ->
  normalize_text b = normalize_text t ->
  counted_once t s (handle (Edit b r) s).
Proof.
  intros Hs Ht Hb. pose proof (active_target_good s t Hs Ht) as Hg.
  unfold good_target in Hg. cbn [handle]. flow_tac.
Qed.

Lemma on_text_change_miss b t r s :
  consistent s -> active_target s = Some t ->
  normalize_text b <> normalize_text t ->
  handle (Edit b r) s = set_var_input b s.
Proof. intros Hs Ht Hb. cbn [handle]. flow_tac. Qed.

Lemma on_submit_hit t r s :
  consistent s -> active_target s = Some t ->
  normalize_text (var_input s) = normalize_text t ->
  counted_once t s (on_submit r s).
Proof. intros Hs Ht Hb. flow_tac. Qed.

Lemma on_submit_miss t r s :
  consistent s -> active_target s = Some t ->
  normalize_text (var_input s) <> normalize_text t ->
  on_submit r s = s.
Proof. intros Hs Ht Hb. flow_tac. Qed.

Lemma counted_once_moves t s s' :
  counted_once t s s' -> total_attempts s' <> total_attempts s.
Proof. intros (H & _). lia. Qed.

(** C2: in a session with the Target [t] active, editing the entry to [b]
    fires the correct-attempt transition iff the normalised [b] is the
    normalised [t], and so does Return for the buffer in the entry.
    Buffers with the same words match whatever their whitespace; a match
    leaves no character other than whitespace different, be it in case or
    in punctuation. *)
Theorem correct_attempt_iff_normalized_match s t b r :
  reachable s -> active_target s = Some t ->
  (counted_once t s (handle (Edit b r) s)
   <-> normalize_text b = normalize_text t)
  /\ (counted_once t s (on_submit r s)
      <-> normalize_text (var_input s) = normalize_text t)
  /\ (split b = split t -> normalize_text b = normalize_text t)
  /\ (normalize_text b = normalize_text t -> nonspace b = nonspace t).
Proof.
  intros Hs%reachable_consistent Ht.
  split; [split | split; [split | split]].
  - intros Hc.
    destruct (decide (normalize_text b = normalize_text t)) as [|Hne]; [done|].
    apply counted_once_moves in Hc.
    rewrite (on_text_change_miss b t r s) in Hc by done. now destruct Hc.
  - now apply on_text_change_hit.
  - intros Hc.
    destruct (decide (normalize_text (var_input s) = normalize_text t)) as [|Hne];
      [done|].
    apply counted_once_moves in Hc.
    rewrite (on_submit_miss t r s) in Hc by done. now destruct Hc.
  - now apply on_submit_hit.
  - apply normalize_text_of_split.
  - apply normalize_text_nonspace.
Qed.

Lemma correct_attempt_iff_normalized_match_witness :
  (reachable two_token_quote /\ active_target two_token_quote = Some (py "night."))
  /\ (counted_once (py "night.") two_token_quote
        (handle (Edit (py "  night. ") 0) two_token_quote)
      <-> normalize_text (py "  night. ") = normalize_text (py "night."))
  /\ (counted_once (py "night.") two_token_quote (on_submit 0 two_token_quote)
      <-> normalize_text (var_input two_token_quote) = normalize_text (py "night."))
  /\ (split (py "  night. ") = split (py "night.") ->
      normalize_text (py "  night. ") = normalize_text (py "night."))
  /\ (normalize_text (py "  night. ") = normalize_text (py "night.") ->
      nonspace (py "  night. ") = nonspace (py "night.")).
Proof.
  assert (Hr : reachable two_token_quote) by (apply reachable_run, reach_start).
  assert (Ht : active_target two_token_quote = Some (py "night."))
    by (vm_compute; reflexivity).
  split; [split; [exact Hr | exact Ht]|].
  exact (correct_attempt_iff_normalized_match
           two_token_quote (py "night.") (py "  night. ") 0 Hr Ht).
Defined.

(** Between two events the guard is down, so a buffer that cannot match, or
    a cleared Target, leaves Return without effect. *)
Lemma on_submit_idle r s :
  consistent s -> var_input s = [] \/ current_word s = None -> on_submit r s = s.
Proof.
  intros Hs [Hv|Hc].
  - unfold on_submit. destruct (active_target s) as [t|] eqn:Ht; [|reflexivity].
    pose proof (active_target_good s t Hs Ht) as Hg. rewrite Hv.
    destruct (_pending_advance s); [reflexivity|].
    destruct (decide (normalize_text [] = normalize_text t)) as [E|]; [|reflexivity].
    now destruct Hg.
  - unfold on_submit, active_target. now rewrite Hc.
Qed.

Lemma advanced_or_cleared b t r s :
  consistent s -> source_loaded s = true -> active_target s = Some t ->
  normalize_text b = normalize_text t ->
  var_input (handle (Edit b r) s) = [] \/ current_word (handle (Edit b r) s) = None.
Proof.
  intros Hs Hl Ht Hb. pose proof (active_target_good s t Hs Ht) as Hg.
  unfold good_target in Hg. cbn [handle].
  by_cases; split_conj; arith_tests; try congruence; try lia; auto.
Qed.

(** Where the source of the current mode is loaded, a match counted on the
    input change is not counted again by Return. *)
Lemma return_after_match_idle b t r r' s :
  reachable s -> source_loaded s = true -> active_target s = Some t ->
  normalize_text b = normalize_text t ->
  counted_once t s (handle (Return r') (handle (Edit b r) s)).
Proof.
  intros Hr Hl Ht Hb. pose proof (reachable_consistent s Hr) as Hs.
  cbn [handle]. rewrite on_submit_idle.
  - now apply on_text_change_hit.
  - now apply (consistent_handle (Edit b r)).
  - now apply (advanced_or_cleared b t).
Qed.

(** C1 fails on the code: after Restart Quote in a window without a bank the
    mode is still [bank_random], so [advance_target] lowers the guard and
    returns at once.  Typing [cat] counts the attempt and leaves Target and
    buffer in place; Return then counts the same Target a second time. *)
Theorem return_counts_same_target_again :
  reachable restarted_without_bank
  /\ active_target restarted_without_bank = Some (py "cat")
  /\ counted_once (py "cat") restarted_without_bank
       (handle (Edit (py "cat") 0) restarted_without_bank)
  /\ (active_target (handle (Edit (py "cat") 0) restarted_without_bank)
      = Some (py "cat")
      /\ var_input (handle (Edit (py "cat") 0) restarted_without_bank) = py "cat"
      /\ _pending_advance (handle (Edit (py "cat") 0) restarted_without_bank)
         = false)
  /\ counted_once (py "cat")
       (handle (Edit (py "cat") 0) restarted_without_bank)
       (handle (Return 0) (handle (Edit (py "cat") 0) restarted_without_bank))
  /\ total_attempts
       (run [Edit (py "cat") 0; Return 0] restarted_without_bank) = 2
  /\ correct_attempts
       (run [Edit (py "cat") 0; Return 0] restarted_without_bank) = 2
  /\ total_correct_chars
       (run [Edit (py "cat") 0; Return 0] restarted_without_bank) = 6.
Proof.
  split; [apply reachable_run, reach_start|].
  vm_compute. repeat split; reflexivity.
Qed.

End Matching.

Section Advancing.

Implicit Types (s : App) (r : nat) (b t : pystr) (e : Event).

Lemma quote_idx_monotone e s :
  is_restart e = false -> quote_idx s <= quote_idx (handle e s).
Proof. intros He. destruct e; try discriminate He; clear He; flow_tac. Qed.

Lemma quote_idx_bounded s :
  consistent s -> quote_tokens s <> [] ->
  quote_idx s <= length (quote_tokens s) - 1.
Proof. intros Hs Hne. flow_tac. Qed.

Lemma advance_target_last_token r s :
  source_mode s = quote_seq -> quote_tokens s <> [] ->
  quote_idx s = length (quote_tokens s) - 1 -> exhausted (advance_target r s).
Proof. intros Hm Hne Hi. flow_tac. Qed.

Lemma exhausted_no_advance b r s :
  exhausted s ->
  handle (Edit b r) s = set_var_input b s
  /\ handle (Return r) s = s
  /\ current_word (advance_target r s) = None
  /\ quote_idx (advance_target r s) = quote_idx s.
Proof. intros H. flow_tac. Qed.

Lemma exhausted_handle e s :
  exhausted s -> is_restart e = false -> source_mode (handle e s) = quote_seq ->
  exhausted (handle e s).
Proof.
  intros H He. destruct e; try discriminate He; clear He; intros Hm; flow_tac.
Qed.

(** C5: no handler other than the two restarts moves the quote cursor back;
    in every session a non-empty token sequence has the cursor at most on
    its last token; the automatic advance from the last token clears the
    Target; and from then on neither an edit nor Return nor a further
    advance brings a Target back, nor does any event short of a restart
    that leaves the session in quote mode. *)
Theorem quote_cursor_monotone_bounded s e r b :
  reachable s ->
  (is_restart e = false -> quote_idx s <= quote_idx (handle e s))
  /\ (quote_tokens s <> [] -> quote_idx s <= length (quote_tokens s) - 1)
  /\ (source_mode s = quote_seq -> quote_tokens s <> [] ->
      quote_idx s = length (quote_tokens s) - 1 ->
      exhausted (advance_target r s))
  /\ (exhausted s ->
      (handle (Edit b r) s = set_var_input b s
       /\ handle (Return r) s = s
       /\ current_word (advance_target r s) = None
       /\ quote_idx (advance_target r s) = quote_idx s)
      /\ (is_restart e = false -> source_mode (handle e s) = quote_seq ->
          exhausted (handle e s))).
Proof.
  intros Hs%reachable_consistent. split; [|split; [|split]].
  - apply quote_idx_monotone.
  - now apply quote_idx_bounded.
  - apply advance_target_last_token.
  - intros Hx. split; [now apply exhausted_no_advance | now apply exhausted_handle].
Qed.

Lemma quote_cursor_monotone_bounded_witness :
  reachable after_first_token
  /\ (is_restart (Edit (py "rage,") 0) = false ->
      quote_idx after_first_token
      <= quote_idx (handle (Edit (py "rage,") 0) after_first_token))
  /\ (quote_tokens after_first_token <> [] ->
      quote_idx after_first_token <= length (quote_tokens after_first_token) - 1)
  /\ (source_mode after_first_token = quote_seq ->
      quote_tokens after_first_token <> [] ->
      quote_idx after_first_token = length (quote_tokens after_first_token) - 1 ->
      exhausted (advance_target 0 after_first_token))
  /\ (exhausted after_first_token ->
      (handle (Edit (py "x") 0) after_first_token
       = set_var_input (py "x") after_first_token
       /\ handle (Return 0) after_first_token = after_first_token
       /\ current_word (advance_target 0 after_first_token) = None
       /\ quote_idx (advance_target 0 after_first_token)
          = quote_idx after_first_token)
      /\ (is_restart (Edit (py "rage,") 0) = false ->
          source_mode (handle (Edit (py "rage,") 0) after_first_token) = quote_seq ->
          exhausted (handle (Edit (py "rage,") 0) after_first_token))).
Proof.
  assert (Hr : reachable after_first_token)
    by (apply reach_handle, reachable_run, reach_start).
  split; [exact Hr|].
  exact (quote_cursor_monotone_bounded
           after_first_token (Edit (py "rage,") 0) 0 (py "x") Hr).
Defined.

(** C6, as written, fails: on the only token of a quote the skip leaves the
    Target and the cursor where they are. *)
Lemma skip_on_last_token_keeps_target :
  reachable one_token_quote
  /\ active_target one_token_quote = Some (py "cat")
  /\ current_word (on_next_word 0 one_token_quote) = Some (py "cat")
  /\ quote_idx (on_next_word 0 one_token_quote) = quote_idx one_token_quote
  /\ ~ advanced one_token_quote (on_next_word 0 one_token_quote).
Proof.
  split; [apply reachable_run, reach_start|].
  split; [vm_compute; reflexivity|].
  split; [vm_compute; reflexivity|].
  split; [vm_compute; reflexivity|].
  vm_compute. intros (H & _). discriminate H.
Qed.

(** C6, amended: the manual skip sets the streak to 0, lowers the guard and
    leaves the attempt counts, the character count and the best streak
    alone.  When the source has a Target to go on with (a token after the
    cursor, or a word in the bank) it shows that Target and clears the
    entry; otherwise Target, cursor and entry stay as they are. *)
Theorem manual_skip_effect s r :
  streak (on_next_word r s) = 0
  /\ _pending_advance (on_next_word r s) = false
  /\ total_attempts (on_next_word r s) = total_attempts s
  /\ correct_attempts (on_next_word r s) = correct_attempts s
  /\ total_correct_chars (on_next_word r s) = total_correct_chars s
  /\ best_streak (on_next_word r s) = best_streak s
  /\ (has_next s = true ->
      advanced s (on_next_word r s) /\ var_input (on_next_word r s) = [])
  /\ (has_next s = false ->
      current_word (on_next_word r s) = current_word s
      /\ quote_idx (on_next_word r s) = quote_idx s
      /\ var_input (on_next_word r s) = var_input s).
Proof.
  by_cases; split_conj; try reflexivity; intros; arith_tests; split_conj;
    try congruence; try lia; eauto using random_choice_In.
Qed.

Lemma manual_skip_effect_witness :
  has_next two_token_quote = true
  /\ advanced two_token_quote (on_next_word 0 two_token_quote)
  /\ var_input (on_next_word 0 two_token_quote) = [].
Proof.
  assert (H : has_next two_token_quote = true) by (vm_compute; reflexivity).
  split; [exact H|].
  exact (proj1 (proj2 (proj2 (proj2 (proj2 (proj2 (proj2
           (manual_skip_effect two_token_quote 0))))))) H).
Defined.

(** C9, as written, fails: typing the last token of a quote counts the
    attempt and clears the Target, and the entry still holds what was
    typed. *)
Lemma quote_end_keeps_buffer :
  reachable one_token_quote
  /\ counted_once (py "cat") one_token_quote
       (handle (Edit (py "cat") 0) one_token_quote)
  /\ current_word (handle (Edit (py "cat") 0) one_token_quote) = None
  /\ _pending_advance (handle (Edit (py "cat") 0) one_token_quote) = false
  /\ var_input (handle (Edit (py "cat") 0) one_token_quote) = py "cat"
  /\ var_input (handle (Edit (py "cat") 0) one_token_quote) <> [].
Proof.
  split; [apply reachable_run, reach_start|].
  vm_compute. repeat split; try reflexivity. discriminate.
Qed.

(** C9, amended: the automatic advance and the manual skip both leave the
    Pending-Advance flag false, in either mode and at any cursor.  They
    clear the entry exactly when the source has a Target to go on with,
    which they then show; at the end of the quote, and with an empty bank,
    the entry keeps its text. *)
Theorem advance_resets_guard_clears_entry_for_next s r :
  _pending_advance (advance_target r s) = false
  /\ _pending_advance (on_next_word r s) = false
  /\ (_pending_advance s = false ->
      _pending_advance (_count_correct_and_schedule_advance r s) = false)
  /\ (has_next s = true ->
      (var_input (advance_target r s) = []
       /\ is_Some (current_word (advance_target r s)))
      /\ (var_input (on_next_word r s) = []
          /\ is_Some (current_word (on_next_word r s))))
  /\ (has_next s = false ->
      var_input (advance_target r s) = var_input s
      /\ var_input (on_next_word r s) = var_input s).
Proof.
  by_cases; split_conj; try reflexivity; intros; arith_tests; split_conj;
    try congruence; try lia; eauto.
Qed.

Lemma advance_resets_guard_clears_entry_for_next_witness :
  has_next two_token_quote = true
  /\ (var_input (advance_target 0 two_token_quote) = []
      /\ is_Some (current_word (advance_target 0 two_token_quote)))
  /\ (var_input (on_next_word 0 two_token_quote) = []
      /\ is_Some (current_word (on_next_word 0 two_token_quote))).
Proof.
  assert (H : has_next two_token_quote = true) by (vm_compute; reflexivity).
  split; [exact H|].
  exact (proj1 (proj2 (proj2 (proj2
           (advance_resets_guard_clears_entry_for_next two_token_quote 0)))) H).
Defined.

End Advancing.

Section Accuracy.

Implicit Types (s : App).

Lemma Qred_self p : Qred (Zpos p # p) = 1%Q.
Proof. change 1%Q with (Qred 1). apply Qred_complete. unfold Qeq. simpl. lia. Qed.

Lemma binary64_self p : binary64 (Zpos p # p) = Some 1%Q.
Proof. unfold binary64. rewrite Qred_self. vm_compute. reflexivity. Qed.

(** A non-zero integer divided by itself is the float 1.0. *)
Lemma int_truediv_self n : (0 < n)%Z -> int_truediv n n = Some 1%Q.
Proof.
  intros Hn. unfold int_truediv. destruct n as [|p|p]; try lia.
  cbn [Z.eqb Z.to_pos]. apply binary64_self.
Qed.

Lemma float_mul_100_1 : float_mul 100 1 = Some 100%Q.
Proof. vm_compute. reflexivity. Qed.

Lemma compute_accuracy_all_correct s :
  correct_attempts s = total_attempts s -> total_attempts s <> 0 ->
  _compute_accuracy s = Some 100%Z.
Proof.
  intros Hc Ht. unfold _compute_accuracy. rewrite Hc.
  destruct (Nat.eqb_spec (total_attempts s) 0) as [|_]; [contradiction|].
  rewrite int_truediv_self by lia. rewrite float_mul_100_1. reflexivity.
Qed.

Lemma spec_accuracy_all_correct n : n <> 0 -> spec_accuracy n n = 100%Z.
Proof.
  intros Hn. unfold spec_accuracy, round_half_even.
  destruct (Nat.eqb_spec n 0) as [|_]; [contradiction|].
  rewrite Z.div_mul, Z_mod_mult by lia.
  replace (2 * 0 ?= Z.of_nat n)%Z with Lt; [reflexivity|].
  symmetry. apply Z.compare_lt_iff. lia.
Qed.

(** The doubles at work: 115 of 200 is 57.5 per cent, which the exact
    quotient rounds to 58, while [100.0 * (115 / 200)] is a double just
    below 57.5 and rounds to 57.  Sessions never get there: they count
    correct attempts only. *)
Example accuracy_in_doubles :
  _compute_accuracy (set_correct_attempts 115 (set_total_attempts 200 fresh))
  = Some 57%Z
  /\ spec_accuracy 115 200 = 58%Z.
Proof. split; vm_compute; reflexivity. Qed.

(** C8: in every session the correct attempts do not exceed the attempts;
    [_compute_accuracy] returns, and what it returns is the exact quotient
    100 * correct / total rounded to the nearest integer, 0 when nothing has
    been attempted, and so a number from 0 to 100. *)
Theorem accuracy_of_reachable_state s :
  reachable s ->
  correct_attempts s <= total_attempts s
  /\ exists a, _compute_accuracy s = Some a
       /\ a = spec_accuracy (correct_attempts s) (total_attempts s)
       /\ (total_attempts s = 0 -> a = 0%Z)
       /\ (0 <= a <= 100)%Z.
Proof.
  intros (_ & Hc & _)%reachable_consistent. split; [lia|].
  destruct (Nat.eq_dec (total_attempts s) 0) as [H0|Hpos].
  - exists 0%Z. unfold _compute_accuracy, spec_accuracy. rewrite H0.
    repeat split; reflexivity || lia.
  - exists 100%Z.
    rewrite compute_accuracy_all_correct, Hc, spec_accuracy_all_correct by assumption.
    repeat split; lia || contradiction.
Qed.

Lemma accuracy_of_reachable_state_witness :
  reachable after_first_token
  /\ correct_attempts after_first_token <= total_attempts after_first_token
  /\ exists a, _compute_accuracy after_first_token = Some a
       /\ a = spec_accuracy (correct_attempts after_first_token)
                (total_attempts after_first_token)
       /\ (total_attempts after_first_token = 0 -> a = 0%Z)
       /\ (0 <= a <= 100)%Z.
Proof.
  assert (Hr : reachable after_first_token)
    by (apply reach_handle, reachable_run, reach_start).
  split; [exact Hr|].
  exact (accuracy_of_reachable_state after_first_token Hr).
Defined.

End Accuracy.

(* ===================================================================== *)
(** ** Text: further results                                              *)
(* ===================================================================== *)

Section TextResults.

Implicit Types (s t u w : pystr) (ws : list pystr) (c : N).

Lemma lstrip_with_fixed p s :
  match s with c :: _ => p c = false | [] => True end -> lstrip_with p s = s.
Proof. destruct s as [|c s]; simpl; [reflexivity|]. now intros ->. Qed.

Lemma strip_with_fixed p s :
  match s with c :: _ => p c = false | [] => True end ->
  match rev s with c :: _ => p c = false | [] => True end ->
  strip_with p s = s.
Proof.
  intros H1 H2. unfold strip_with, rstrip_with.
  rewrite (lstrip_with_fixed p s H1), (lstrip_with_fixed p (rev s) H2).
  apply rev_involutive.
Qed.

Lemma lstrip_with_head_ok p s :
  match lstrip_with p s with c :: _ => p c = false | [] => True end.
Proof.
  destruct (lstrip_with p s) as [|c r] eqn:E; [exact I|].
  now apply lstrip_with_head in E.
Qed.

Lemma rstrip_with_last_ok p s :
  match rev (rstrip_with p s) with c :: _ => p c = false | [] => True end.
Proof. unfold rstrip_with. rewrite rev_involutive. apply lstrip_with_head_ok. Qed.

Lemma rstrip_with_head_ok p s :
  match s with c :: _ => p c = false | [] => True end ->
  match rstrip_with p s with c :: _ => p c = false | [] => True end.
Proof.
  intros H. destruct (rstrip_with_decomp p s) as [t [Hs _]].
  destruct (rstrip_with p s) as [|c r]; [exact I|].
  rewrite Hs in H. exact H.
Qed.

Lemma strip_with_idempotent p s : strip_with p (strip_with p s) = strip_with p s.
Proof.
  apply strip_with_fixed.
  - apply rstrip_with_head_ok, lstrip_with_head_ok.
  - apply rstrip_with_last_ok.
Qed.

Lemma strip_with_decomp p s :
  exists l r, s = l ++ strip_with p s ++ r /\ forallb p l = true /\ forallb p r = true.
Proof.
  destruct (lstrip_with_decomp p s) as [l [Hl Hpl]].
  destruct (rstrip_with_decomp p (lstrip_with p s)) as [r [Hr Hpr]].
  exists l, r. unfold strip_with. rewrite <- Hr. auto.
Qed.

Lemma strip_with_nil_iff p s : strip_with p s = [] <-> forallb p s = true.
Proof.
  split.
  - intros H. destruct (strip_with_decomp p s) as (l & r & Hs & Hl & Hr).
    rewrite H in Hs. simpl in Hs. rewrite Hs, forallb_app, Hl, Hr. reflexivity.
  - intros H. unfold strip_with.
    assert (E : lstrip_with p s = []).
    { induction s as [|c s IH]; simpl in *; [reflexivity|].
      apply andb_prop in H as [-> H]. auto. }
    rewrite E. reflexivity.
Qed.

Lemma starts_word_app_l s t : s <> [] -> starts_word (s ++ t) = starts_word s.
Proof. destruct s; [congruence | reflexivity]. Qed.

Lemma join_ends_word ws :
  Forall is_word ws -> ws <> [] -> starts_word (rev (join [32%N] ws)) = true.
Proof.
  induction 1 as [|w ws [Hne Hw] Hws IH]; [congruence|]. intros _.
  assert (Hrw : starts_word (rev w) = true).
  { destruct (rev w) as [|c r] eqn:E.
    - apply (f_equal (@rev N)) in E. rewrite rev_involutive in E. now subst.
    - simpl. rewrite forallb_forall in Hw. apply Hw, in_rev. rewrite E. now left. }
  destruct ws as [|w' ws']; [exact Hrw|].
  change (join [32%N] (w :: w' :: ws')) with (w ++ [32%N] ++ join [32%N] (w' :: ws')).
  rewrite !rev_app_distr, <- app_assoc.
  rewrite starts_word_app_l; [now apply IH|].
  intros E. apply (f_equal (@rev N)) in E. rewrite rev_involutive in E.
  specialize (IH ltac:(discriminate)). now rewrite E in IH.
Qed.

Lemma starts_word_head s :
  starts_word s = true -> match s with c :: _ => isspace c = false | [] => True end.
Proof. destruct s; simpl; [auto|]. now intros ->%negb_true_iff. Qed.

Lemma strip_join ws : Forall is_word ws -> strip (join [32%N] ws) = join [32%N] ws.
Proof.
  intros Hws. destruct ws as [|w ws]; [reflexivity|].
  apply strip_with_fixed; apply starts_word_head.
  - now apply join_starts_word.
  - now apply join_ends_word.
Qed.

Lemma single_spaced_word_app w s :
  forallb (fun c => negb (isspace c)) w = true -> starts_word s = true ->
  single_spaced s = true -> single_spaced (w ++ 32%N :: s) = true.
Proof.
  intros Hw Hs Hss. induction w as [|a w IH].
  - destruct s as [|c s]; [discriminate|]. simpl in Hs |- *.
    apply negb_true_iff in Hs. simpl in Hss. rewrite Hs in Hss |- *. exact Hss.
  - simpl in Hw. apply andb_prop in Hw as [Ha Hw]. apply negb_true_iff in Ha.
    specialize (IH Hw). cbn [app single_spaced]. rewrite IH, Ha.
    destruct (w ++ 32%N :: s); reflexivity.
Qed.

Lemma single_spaced_word w :
  forallb (fun c => negb (isspace c)) w = true -> single_spaced w = true.
Proof.
  induction w as [|a w IH]; [reflexivity|]. simpl.
  intros [Ha Hw]%andb_prop. apply negb_true_iff in Ha. rewrite Ha, IH by exact Hw.
  destruct w; reflexivity.
Qed.

Lemma single_spaced_join ws : Forall is_word ws -> single_spaced (join [32%N] ws) = true.
Proof.
  induction 1 as [|w ws [Hne Hw] Hws IH]; [reflexivity|].
  destruct ws as [|w' ws']; [now apply single_spaced_word|].
  change (join [32%N] (w :: w' :: ws')) with (w ++ 32%N :: join [32%N] (w' :: ws')).
  apply single_spaced_word_app; auto. now apply join_starts_word.
Qed.

Lemma join_whitespace_is_space ws c :
  Forall is_word ws -> In c (join [32%N] ws) -> isspace c = true -> c = 32%N.
Proof.
  induction 1 as [|w ws [Hne Hw] Hws IH]; [intros []|].
  assert (Hin : forall x, In x w -> isspace x = true -> False).
  { intros x Hx Hsp. rewrite forallb_forall in Hw. specialize (Hw x Hx).
    rewrite Hsp in Hw. discriminate. }
  destruct ws as [|w' ws'].
  - simpl. intros Hc Hsp. destruct (Hin c Hc Hsp).
  - change (join [32%N] (w :: w' :: ws')) with (w ++ 32%N :: join [32%N] (w' :: ws')).
    intros [Hc|[Hc|Hc]]%in_app_or Hsp; [destruct (Hin c Hc Hsp) | auto | auto].
Qed.

(** X1: [normalize_text] is idempotent; its result has no whitespace at
    either end, no two whitespace characters side by side and no whitespace
    character other than the space; it keeps every character that is not
    whitespace, and it is empty exactly for a text of whitespace only. *)
Theorem normalize_text_canonical s :
  normalize_text (normalize_text s) = normalize_text s
  /\ strip (normalize_text s) = normalize_text s
  /\ single_spaced (normalize_text s) = true
  /\ (forall c, In c (normalize_text s) -> isspace c = true -> c = 32%N)
  /\ nonspace (normalize_text s) = nonspace s
  /\ (normalize_text s = [] <-> forallb isspace s = true).
Proof.
  split; [apply normalize_text_idempotent|].
  split; [apply strip_join, split_words|].
  split; [apply single_spaced_join, split_words|].
  split; [intros c; apply join_whitespace_is_space, split_words|].
  split; [apply nonspace_normalize_text|].
  rewrite normalize_text_nil_iff. split; [|apply split_spaces].
  intros H. induction s as [|c s IH]; [reflexivity|]. simpl in *.
  destruct (isspace c) eqn:Hc; [auto|].
  destruct (starts_word s); [destruct (split s)|]; discriminate.
Qed.


Lemma normalize_text_blank s : forallb isspace s = true -> normalize_text s = [].
Proof. intros H. apply normalize_text_nil_iff. now apply split_spaces. Qed.

(** X2: the tokens of a text are words (non-empty, free of whitespace);
    joined by single spaces they give back the normalised text, and
    concatenated they are the text without its whitespace.  A text of
    whitespace only has no tokens, and normalising first changes nothing. *)
Theorem tokenize_source_text_words s :
  Forall is_word (tokenize_source_text s)
  /\ join [32%N] (tokenize_source_text s) = normalize_text s
  /\ concat (tokenize_source_text s) = nonspace s
  /\ (tokenize_source_text s = [] <-> forallb isspace s = true)
  /\ tokenize_source_text (normalize_text s) = tokenize_source_text s.
Proof.
  rewrite !tokenize_source_text_split.
  split; [apply split_words|].
  split; [unfold normalize_text; now rewrite split_strip|].
  split; [apply concat_split|].
  split.
  - split; [|apply split_spaces].
    intros H. induction s as [|c s IH]; [reflexivity|]. simpl in *.
    destruct (isspace c) eqn:Hc; [auto|].
    destruct (starts_word s); [destruct (split s)|]; discriminate.
  - unfold normalize_text. rewrite split_strip. apply split_join, split_words.
Qed.


(** [strip] removes a run of stripped characters from either end and
    nothing else; what is left neither begins nor ends with such a character,
    stripping it again changes nothing, and it is empty exactly when every
    character of the string is stripped. *)
Theorem strip_with_spec p s :
  (exists l r, s = l ++ strip_with p s ++ r
               /\ forallb p l = true /\ forallb p r = true)
  /\ match strip_with p s with c :: _ => p c = false | [] => True end
  /\ match rev (strip_with p s) with c :: _ => p c = false | [] => True end
  /\ strip_with p (strip_with p s) = strip_with p s
  /\ (strip_with p s = [] <-> forallb p s = true).
Proof.
  split; [apply strip_with_decomp|].
  split; [apply rstrip_with_head_ok, lstrip_with_head_ok|].
  split; [apply rstrip_with_last_ok|].
  split; [apply strip_with_idempotent | apply strip_with_nil_iff].
Qed.

Lemma load_word_bank_filter lines :
  load_word_bank lines = List.filter usable_line (List.map strip lines).
Proof.
  induction lines as [|line lines IH]; [reflexivity|]. simpl.
  destruct (strip line) as [|c r]; [exact IH|]. unfold usable_line.
  destruct (starts_with_hash (c :: r)); simpl; now rewrite IH.
Qed.


(** X3: the word bank is the stripped lines of the file that are neither
    empty nor comments, in file order.  Every entry is trimmed, non-empty,
    does not begin with the hash sign and has at least one word. *)
Theorem load_word_bank_entries lines :
  load_word_bank lines = List.filter usable_line (List.map strip lines)
  /\ Forall (fun w => strip w = w /\ w <> [] /\ starts_with_hash w = false
                      /\ normalize_text w <> [])
       (load_word_bank lines)
  /\ length (load_word_bank lines) <= length lines.
Proof.
  split; [apply load_word_bank_filter|]. split.
  - pose proof (load_word_bank_good lines) as Hg.
    rewrite load_word_bank_filter in *. rewrite Forall_forall in *.
    intros w Hw. pose proof Hw as Hw'.
    apply list_elem_of_In, filter_In in Hw' as [[line [<- _]]%in_map_iff Hu].
    split; [apply strip_with_idempotent|].
    unfold usable_line in Hu. destruct (strip line) eqn:E; [discriminate|].
    split; [discriminate|]. split; [now apply negb_true_iff|].
    rewrite <- E. rewrite <- E in Hw. exact (Hg _ Hw).
  - rewrite load_word_bank_filter.
    etransitivity; [apply filter_length_le|]. now rewrite length_map.
Qed.

End TextResults.

(* ===================================================================== *)
(** ** The dictionary loader and the hint: further results                *)
(* ===================================================================== *)

Section LoaderResults.

Implicit Types (items : list (pystr * json)) (m : gmap pystr (list pystr)).
Implicit Types (t k w : pystr).

Lemma count_true_none {A} (p : A -> bool) (l : list A) :
  Forall (fun x => p x = false) l -> count_true p l = 0.
Proof.
  unfold count_true. induction 1 as [|x l Hx _ IH]; [reflexivity|].
  simpl. now rewrite Hx.
Qed.

Lemma count_true_all {A} (p : A -> bool) (l : list A) :
  Forall (fun x => p x = true) l -> count_true p l = length l.
Proof.
  unfold count_true. induction 1 as [|x l Hx _ IH]; [reflexivity|].
  simpl. rewrite Hx. simpl. now rewrite IH.
Qed.

Lemma inverts_needs_stroke_key items :
  Forall (fun kv => looks_like_stroke (fst kv) = false) items -> inverts items = false.
Proof.
  intros H. unfold inverts, key_strokeish. rewrite count_true_none by exact H.
  apply andb_false_intro1, Nat.leb_gt. lia.
Qed.

Lemma inverts_needs_string_value items :
  Forall (fun kv => is_str (snd kv) = false) items -> inverts items = false.
Proof.
  intros H. unfold inverts, val_stringish. rewrite count_true_none by exact H.
  apply andb_false_intro2, Nat.leb_gt. lia.
Qed.

Lemma inverts_all_strokes items :
  items <> [] ->
  Forall (fun kv => looks_like_stroke (fst kv) = true) items ->
  Forall (fun kv => is_str (snd kv) = true) items ->
  inverts items = true.
Proof.
  intros Hne Hk Hv. unfold inverts, key_strokeish, val_stringish.
  rewrite !count_true_all by assumption.
  assert (0 < length items) by (destruct items; [congruence | simpl; lia]).
  apply andb_true_intro. split; apply Nat.leb_le.
  - apply Nat.max_lub; [lia|]. apply Nat.Div0.div_le_upper_bound. lia.
  - apply Nat.max_lub; [lia|]. apply Nat.Div0.div_le_upper_bound. lia.
Qed.

Lemma fold_direct_entry_lookup items m t :
  fold_left direct_entry items m !! t =
  match last_strokes t items with
  | Some ss => Some ss
  | None => m !! t
  end.
Proof.
  revert m. induction items as [|kv items IH]; intros m; [reflexivity|].
  cbn [fold_left last_strokes]. rewrite IH.
  destruct (last_strokes t items); [reflexivity|].
  unfold direct_entry. destruct (decide (normalize_text (fst kv) = t)) as [<-|Hne].
  - destruct (strokes_of (snd kv)); [apply lookup_insert_eq | reflexivity].
  - destruct (strokes_of (snd kv)); [now apply lookup_insert_ne | reflexivity].
Qed.

Lemma last_strokes_defines items t :
  is_Some (last_strokes t items) <-> Exists (defines t) items.
Proof.
  induction items as [|kv items IH]; cbn [last_strokes].
  - split; [intros [? [=]] | intros H; inversion H].
  - rewrite Exists_cons, <- IH. unfold defines.
    destruct (last_strokes t items) as [ss|].
    + split; eauto.
    + destruct (decide (normalize_text (fst kv) = t)) as [E|E].
      * split; [intros H; left; auto | intros [[_ H]|[? [=]]]; exact H].
      * split; [intros [? [=]] | intros [[H _]|[? [=]]]; contradiction].
Qed.

Lemma strokes_for_In items t stroke :
  In stroke (strokes_for t items) <->
  exists translation, In (stroke, JString translation) items
                      /\ normalize_text translation = t.
Proof.
  induction items as [|[k v] items IH]; cbn [strokes_for].
  - split; [intros [] | intros (? & [] & _)].
  - assert (Hskip : (forall tr, v <> JString tr) ->
                    (In stroke (strokes_for t items) <->
                     exists translation,
                       In (stroke, JString translation) ((k, v) :: items)
                       /\ normalize_text translation = t)).
    { intros Hv. rewrite IH. split.
      - intros (tr & Hin & E). exists tr. split; [now right | exact E].
      - intros (tr & [[= _ Heq]|Hin] & E); [now destruct (Hv tr) | eauto]. }
    destruct v as [| | |tr0| |]; try (apply Hskip; intros tr; discriminate).
    destruct (decide (normalize_text tr0 = t)) as [E0|E0].
    + cbn [In]. rewrite IH. split.
      * intros [<-|(tr & Hin & E)]; [exists tr0; split; [now left | exact E0]|].
        exists tr. split; [now right | exact E].
      * intros (tr & [[= <- <-]|Hin] & E); [now left | right; eauto].
    + rewrite IH. split.
      * intros (tr & Hin & E). exists tr. split; [now right | exact E].
      * intros (tr & [[= _ <-]|Hin] & E); [contradiction | eauto].
Qed.

Lemma fold_direct_entry_nothing items m :
  Forall (fun kv => strokes_of (snd kv) = None) items ->
  fold_left direct_entry items m = m.
Proof.
  intros H. revert m. induction H as [|kv items Hkv _ IH]; intros m; [reflexivity|].
  cbn [fold_left]. rewrite IH. unfold direct_entry. now rewrite Hkv.
Qed.

(** X4: a parsed file that is not an object is refused with a [ValueError];
    the empty object loads as the empty mapping; and so does an object none
    of whose values is a string or a list of strings: such entries are
    dropped without an error. *)
Theorem load_dictionary_json_rejects_and_drops raw items :
  (match raw with
   | JObject _ => True
   | _ => load_dictionary_json raw = ValueError "Dictionary JSON must be an object."
   end)
  /\ load_dictionary_json (JObject []) = Ok ∅
  /\ (Forall (fun kv => strokes_of (snd kv) = None) items ->
      load_dictionary_json (JObject items) = Ok ∅).
Proof.
  split; [now destruct raw|]. split; [reflexivity|].
  intros H. rewrite load_dictionary_json_object, inverts_needs_string_value.
  - now rewrite fold_direct_entry_nothing.
  - eapply Forall_impl; [exact H|]. intros [k v]. cbn [snd]. now destruct v.
Qed.

Lemma load_dictionary_json_rejects_and_drops_witness :
  Forall (fun kv => strokes_of (snd kv) = None) unsupported_values
  /\ load_dictionary_json (JObject unsupported_values) = Ok ∅.
Proof.
  assert (H : Forall (fun kv => strokes_of (snd kv) = None) unsupported_values)
    by (repeat constructor).
  split; [exact H|].
  exact (proj2 (proj2 (load_dictionary_json_rejects_and_drops JNull unsupported_values)) H).
Defined.

(** X5: read as translation-keyed, the loaded mapping gives for each
    translation the stroke list of the last entry defining it, and its keys
    are just the translations some entry defines. *)
Theorem translation_keyed_lookup items :
  ~ floor_thresholds_met items ->
  exists m, load_dictionary_json (JObject items) = Ok m
            /\ (forall t, m !! t = last_strokes t items)
            /\ (forall t, is_Some (m !! t) <-> Exists (defines t) items).
Proof.
  intros Hn. rewrite load_dictionary_json_object.
  destruct (inverts items) eqn:E; [now apply inverts_spec in E|].
  eexists. split; [reflexivity|].
  assert (H : forall t, fold_left direct_entry items ∅ !! t = last_strokes t items).
  { intros t. rewrite fold_direct_entry_lookup, lookup_empty.
    now destruct (last_strokes t items). }
  split; [exact H|]. intros t. rewrite H. apply last_strokes_defines.
Qed.

Lemma translation_keyed_lookup_witness :
  ~ floor_thresholds_met spelled_twice
  /\ exists m, load_dictionary_json (JObject spelled_twice) = Ok m
               /\ (forall t, m !! t = last_strokes t spelled_twice)
               /\ (forall t, is_Some (m !! t) <-> Exists (defines t) spelled_twice).
Proof.
  assert (H : ~ floor_thresholds_met spelled_twice)
    by (intros [H _]; vm_compute in H; lia).
  split; [exact H|]. exact (translation_keyed_lookup spelled_twice H).
Defined.

(** X6: read as stroke-keyed, the loaded mapping lists a stroke under a
    translation exactly when the file has that stroke with a string value
    normalising to the translation; no key has an empty stroke list. *)
Theorem stroke_keyed_lookup items :
  floor_thresholds_met items ->
  exists m, load_dictionary_json (JObject items) = Ok m
            /\ (forall t stroke,
                   (exists ss, m !! t = Some ss /\ In stroke ss)
                   <-> exists translation,
                         In (stroke, JString translation) items
                         /\ normalize_text translation = t)
            /\ (forall t, m !! t <> Some []).
Proof.
  intros He%inverts_spec. rewrite load_dictionary_json_object, He.
  eexists. split; [reflexivity|].
  assert (H : forall t, fold_left invert_entry items ∅ !! t =
                        match strokes_for t items with [] => None | ss => Some ss end).
  { intros t. now rewrite fold_invert_entry_lookup, lookup_empty. }
  split.
  - intros t stroke. rewrite H, <- strokes_for_In.
    destruct (strokes_for t items) as [|s0 ss0]; split.
    + intros (ss & [=] & _).
    + intros [].
    + intros (ss & [= <-] & Hin). exact Hin.
    + intros Hin. eauto.
  - intros t. rewrite H. now destruct (strokes_for t items).
Qed.

Lemma stroke_keyed_lookup_witness :
  floor_thresholds_met five_strokes
  /\ exists m, load_dictionary_json (JObject five_strokes) = Ok m
            /\ (forall t stroke,
                   (exists ss, m !! t = Some ss /\ In stroke ss)
                   <-> exists translation,
                         In (stroke, JString translation) five_strokes
                         /\ normalize_text translation = t)
            /\ (forall t, m !! t <> Some []).
Proof.
  assert (H : floor_thresholds_met five_strokes) by (vm_compute; split; lia).
  split; [exact H|]. exact (stroke_keyed_lookup five_strokes H).
Defined.

(** X7: an object without a stroke-shaped key, or without a string value,
    is read as translation-keyed; a non-empty object all of whose keys are
    stroke-shaped and all of whose values are strings is read as
    stroke-keyed, whichever way it was meant. *)
Theorem orientation_by_shape items :
  (Forall (fun kv => looks_like_stroke (fst kv) = false) items
   \/ Forall (fun kv => is_str (snd kv) = false) items ->
   exists m, load_dictionary_json (JObject items) = Ok m
             /\ forall t, m !! t = last_strokes t items)
  /\ (items <> [] ->
      Forall (fun kv => looks_like_stroke (fst kv) = true) items ->
      Forall (fun kv => is_str (snd kv) = true) items ->
      exists m, load_dictionary_json (JObject items) = Ok m
                /\ forall t, m !! t = match strokes_for t items with
                                      | [] => None
                                      | ss => Some ss
                                      end).
Proof.
  rewrite load_dictionary_json_object. split.
  - intros H. replace (inverts items) with false.
    + eexists. split; [reflexivity|]. intros t.
      rewrite fold_direct_entry_lookup, lookup_empty.
      now destruct (last_strokes t items).
    + symmetry. destruct H as [H|H];
        [now apply inverts_needs_stroke_key | now apply inverts_needs_string_value].
  - intros Hne Hk Hv. rewrite inverts_all_strokes by assumption.
    eexists. split; [reflexivity|]. intros t.
    now rewrite fold_invert_entry_lookup, lookup_empty.
Qed.

Lemma orientation_by_shape_witness :
  (Forall (fun kv => looks_like_stroke (fst kv) = false) plain_words
   /\ exists m, load_dictionary_json (JObject plain_words) = Ok m
                /\ forall t, m !! t = last_strokes t plain_words)
  /\ (hyphenated_words <> []
      /\ Forall (fun kv => looks_like_stroke (fst kv) = true) hyphenated_words
      /\ Forall (fun kv => is_str (snd kv) = true) hyphenated_words
      /\ exists m, load_dictionary_json (JObject hyphenated_words) = Ok m
                   /\ forall t, m !! t = match strokes_for t hyphenated_words with
                                         | [] => None
                                         | ss => Some ss
                                         end).
Proof.
  assert (H1 : Forall (fun kv => looks_like_stroke (fst kv) = false) plain_words)
    by (repeat constructor).
  assert (H2 : hyphenated_words <> []) by discriminate.
  assert (H3 : Forall (fun kv => looks_like_stroke (fst kv) = true) hyphenated_words)
    by (repeat constructor).
  assert (H4 : Forall (fun kv => is_str (snd kv) = true) hyphenated_words)
    by (repeat constructor).
  split.
  - split; [exact H1|].
    exact (proj1 (orientation_by_shape plain_words) (or_introl H1)).
  - split; [exact H2|]. split; [exact H3|]. split; [exact H4|].
    exact (proj2 (orientation_by_shape hyphenated_words) H2 H3 H4).
Defined.

Lemma lower_char_not_upper c : is_upper (lower_char c) = false.
Proof.
  unfold lower_char, is_upper.
  destruct ((65 <=? c) && (c <=? 90))%N eqn:E; [|exact E].
  apply andb_prop in E as [H1%N.leb_le H2%N.leb_le].
  apply andb_false_intro2, N.leb_gt. lia.
Qed.

Lemma lower_char_not_punct c :
  is_hint_punct c = false -> is_hint_punct (lower_char c) = false.
Proof.
  intros H. unfold lower_char.
  destruct ((65 <=? c) && (c <=? 90))%N eqn:E; [|exact H].
  apply andb_prop in E as [H1%N.leb_le H2%N.leb_le].
  unfold is_hint_punct. apply not_true_is_false.
  intros (x & Hx & Heq%N.eqb_eq)%existsb_exists. subst x.
  assert (Hlow : forallb (fun x => negb ((97 <=? x) && (x <=? 122)))%N
                   (py ".,!?;:" ++ [34%N] ++ py "'()[]{}") = true)
    by (vm_compute; reflexivity).
  rewrite forallb_forall in Hlow. specialize (Hlow _ Hx).
  apply negb_true_iff, andb_false_iff in Hlow as [Hl%N.leb_gt|Hl%N.leb_gt]; lia.
Qed.

Lemma hint_key_no_upper w : existsb is_upper (hint_key w) = false.
Proof.
  unfold hint_key, lower. generalize (strip_with is_hint_punct w) as s.
  induction s as [|c s IH]; [reflexivity|]. simpl.
  now rewrite lower_char_not_upper, IH.
Qed.

Lemma hint_key_no_edge_punct w : edge_punct (hint_key w) = false.
Proof.
  unfold hint_key, lower, edge_punct. rewrite <- map_rev.
  pose proof (rstrip_with_head_ok is_hint_punct _ (lstrip_with_head_ok is_hint_punct w)) as Hh.
  pose proof (rstrip_with_last_ok is_hint_punct (lstrip_with is_hint_punct w)) as Hl.
  fold (strip_with is_hint_punct w) in Hh, Hl.
  apply orb_false_intro.
  - destruct (strip_with is_hint_punct w); [reflexivity|].
    now apply lower_char_not_punct.
  - destruct (rev (strip_with is_hint_punct w)); [reflexivity|].
    now apply lower_char_not_punct.
Qed.

(** X8: the key [_hint_for] looks up has no upper-case ASCII letter and no
    stripped punctuation at either end.  So for an ASCII word the hint is the
    same with or without a dictionary entry whose key has such a letter or
    such an end: that entry is never shown. *)
Theorem hint_never_shows_unclean_key steno_dict w k max_hints :
  Forall (fun c => (c < 128)%N) w ->
  existsb is_upper k = true \/ edge_punct k = true ->
  hint_key w <> k
  /\ _hint_for steno_dict w max_hints = _hint_for (delete k steno_dict) w max_hints.
Proof.
  intros _ Hk.
  assert (Hne : hint_key w <> k).
  { intros <-. destruct Hk as [Hk|Hk].
    - now rewrite hint_key_no_upper in Hk.
    - now rewrite hint_key_no_edge_punct in Hk. }
  split; [exact Hne|]. unfold _hint_for.
  now rewrite lookup_delete_ne by (intros E; now apply Hne).
Qed.

Lemma hint_never_shows_unclean_key_witness :
  (Forall (fun c => (c < 128)%N) (py "hello")
   /\ (existsb is_upper (py "Hello!") = true \/ edge_punct (py "Hello!") = true))
  /\ hint_key (py "hello") <> py "Hello!"
  /\ _hint_for capital_key_dict (py "hello") 20
     = _hint_for (delete (py "Hello!") capital_key_dict) (py "hello") 20.
Proof.
  assert (H1 : Forall (fun c => (c < 128)%N) (py "hello"))
    by (repeat constructor).
  assert (H2 : existsb is_upper (py "Hello!") = true \/ edge_punct (py "Hello!") = true)
    by (left; reflexivity).
  split; [split; [exact H1 | exact H2]|].
  exact (hint_never_shows_unclean_key capital_key_dict (py "hello") (py "Hello!") 20 H1 H2).
Defined.

(** X9: after a stroke-keyed file is loaded, the hint for an ASCII word
    shows the strokes the file lists for the cleaned word, in file order and
    at most [max_hints] of them, with the ellipsis when there are more; a
    word the file does not list gets the no-mapping message. *)
Theorem hint_shows_file_strokes items m w max_hints :
  Forall (fun c => (c < 128)%N) w ->
  floor_thresholds_met items ->
  load_dictionary_json (JObject items) = Ok m ->
  _hint_for m w max_hints =
  match strokes_for (hint_key w) items with
  | [] => no_mapping
  | ss =>
      py "Steno:" ++ [10%N] ++ join (py " | ") (take max_hints ss)
      ++ (if max_hints <? length ss then py " | " ++ [8230%N] else [])
  end.
Proof.
  intros _ He%inverts_spec. rewrite load_dictionary_json_object, He. intros [= <-].
  unfold _hint_for. rewrite fold_invert_entry_lookup, lookup_empty.
  destruct (strokes_for (hint_key w) items) as [|st ss]; [reflexivity|].
  change (default [] None ++ st :: ss) with (st :: ss).
  cbv beta iota zeta. destruct (max_hints <? length (st :: ss)).
  - reflexivity.
  - now rewrite app_nil_r.
Qed.

Lemma hint_shows_file_strokes_witness :
  (Forall (fun c => (c < 128)%N) (py "(Cat),")
   /\ floor_thresholds_met five_strokes
   /\ load_dictionary_json (JObject five_strokes) = Ok five_strokes_mapping)
  /\ _hint_for five_strokes_mapping (py "(Cat),") 20 =
     match strokes_for (hint_key (py "(Cat),")) five_strokes with
     | [] => no_mapping
     | ss =>
         py "Steno:" ++ [10%N] ++ join (py " | ") (take 20 ss)
         ++ (if 20 <? length ss then py " | " ++ [8230%N] else [])
     end.
Proof.
  assert (H1 : Forall (fun c => (c < 128)%N) (py "(Cat),")) by (repeat constructor).
  assert (H2 : floor_thresholds_met five_strokes) by (vm_compute; split; lia).
  assert (H3 : load_dictionary_json (JObject five_strokes) = Ok five_strokes_mapping)
    by (vm_compute; reflexivity).
  split; [split; [exact H1 | split; [exact H2 | exact H3]]|].
  exact (hint_shows_file_strokes five_strokes five_strokes_mapping (py "(Cat),") 20 H1 H2 H3).
Defined.

End LoaderResults.

(* ===================================================================== *)
(** ** The keys of the loaded dictionary                                  *)
(* ===================================================================== *)

Section LoadedKeys.

Implicit Types (items : list (pystr * json)) (m : gmap pystr (list pystr)).
Implicit Types (tr k : pystr).

Lemma loaded_keys_direct items k :
  inverts items = false ->
  is_Some (fold_left direct_entry items ∅ !! k) <->
  exists tr, In tr (translation_texts (JObject items)) /\ k = normalize_text tr.
Proof.
  intros Hd. rewrite fold_direct_entry_lookup, lookup_empty.
  assert (E : is_Some (match last_strokes k items with
                       | Some ss => Some ss
                       | None => None
                       end) <-> is_Some (last_strokes k items))
    by now destruct (last_strokes k items).
  rewrite E, last_strokes_defines, Exists_exists. clear E.
  unfold translation_texts. rewrite Hd. split.
  - intros (kv & Hin & Hk & Hss). exists (fst kv). split; [|now rewrite Hk].
    apply list_elem_of_In, list_elem_of_omap. exists kv. split; [exact Hin|].
    now destruct Hss as [ss ->].
  - intros (tr & (kv & Hin & Hf)%list_elem_of_In%list_elem_of_omap & ->).
    exists kv. split; [exact Hin|]. unfold defines.
    destruct (strokes_of (snd kv)); [|discriminate].
    injection Hf as <-. split; [reflexivity | eauto].
Qed.

Lemma loaded_keys_inverted items k :
  inverts items = true ->
  is_Some (fold_left invert_entry items ∅ !! k) <->
  exists tr, In tr (translation_texts (JObject items)) /\ k = normalize_text tr.
Proof.
  intros Hi. rewrite fold_invert_entry_lookup, lookup_empty.
  unfold translation_texts. rewrite Hi. split.
  - intros Hs. destruct (strokes_for k items) as [|stroke ss] eqn:E.
    { now destruct Hs. }
    assert (Hin : In stroke (strokes_for k items)) by (rewrite E; now left).
    apply strokes_for_In in Hin as (tr & Hin & <-). exists tr. split; [|reflexivity].
    apply list_elem_of_In, list_elem_of_omap. exists (stroke, JString tr).
    split; [now apply list_elem_of_In | reflexivity].
  - intros (tr & (kv & Hin%list_elem_of_In & Hf)%list_elem_of_In%list_elem_of_omap & ->).
    destruct kv as [stroke v]. cbn [snd] in Hf.
    destruct v; try discriminate. injection Hf as ->.
    assert (Hs : In stroke (strokes_for (normalize_text tr) items))
      by (apply strokes_for_In; eauto).
    destruct (strokes_for (normalize_text tr) items); [destruct Hs | eauto].
Qed.

(** C7, as written, fails: the key loaded for the translation [Hello!] is
    [Hello!] itself, while its lower-cased, punctuation-stripped form is
    [hello]. *)
Lemma loaded_key_keeps_case_and_punctuation :
  load_dictionary_json (JObject [(py "Hello!", JString (py "H-L"))])
  = Ok (<[py "Hello!" := [py "H-L"]]> ∅)
  /\ hint_key (py "Hello!") = py "hello"
  /\ hint_key (py "Hello!") <> py "Hello!".
Proof. repeat split; try (vm_compute; reflexivity). vm_compute. discriminate. Qed.

(** C7, amended: the keys of the loaded mapping are the translation texts of
    the file with their whitespace normalised, and nothing else is done to
    them.  Every key equals its own [normalize_text]; it is the
    [normalize_text] of a translation text of the file and has that text's
    non-whitespace characters, letter case and punctuation included, in the
    same order; and every translation text of the file gives a key.
    Lower-casing and punctuation stripping happen in [_hint_for] alone: it
    reads the mapping under the word it cleans, which for an ASCII word has
    no upper-case letter and no stripped punctuation at either end. *)
Theorem loaded_keys_normalized raw m :
  load_dictionary_json raw = Ok m ->
  (forall k, is_Some (m !! k) ->
     normalize_text k = k
     /\ exists tr, In tr (translation_texts raw)
                   /\ k = normalize_text tr
                   /\ nonspace k = nonspace tr)
  /\ (forall tr, In tr (translation_texts raw) -> is_Some (m !! normalize_text tr))
  /\ (forall w max_hints,
        Forall (fun c => (c < 128)%N) w ->
        existsb is_upper (hint_key w) = false
        /\ edge_punct (hint_key w) = false
        /\ forall m' : gmap pystr (list pystr),
             m' !! hint_key w = m !! hint_key w ->
             _hint_for m' w max_hints = _hint_for m w max_hints).
Proof.
  destruct raw as [| | | | |items]; try discriminate.
  rewrite load_dictionary_json_object. intros [= <-].
  assert (Hkeys : forall k,
             is_Some ((if inverts items then fold_left invert_entry items ∅
                       else fold_left direct_entry items ∅) !! k) <->
             exists tr, In tr (translation_texts (JObject items))
                        /\ k = normalize_text tr).
  { intros k. destruct (inverts items) eqn:E.
    - now apply loaded_keys_inverted.
    - now apply loaded_keys_direct. }
  split; [|split].
  - intros k (tr & Hin & ->)%Hkeys. split; [apply normalize_text_idempotent|].
    exists tr. split; [exact Hin|]. split; [reflexivity|].
    apply nonspace_normalize_text.
  - intros tr Hin. apply Hkeys. eauto.
  - intros w max_hints _. split; [apply hint_key_no_upper|].
    split; [apply hint_key_no_edge_punct|].
    intros m' Hm'. unfold _hint_for. now rewrite Hm'.
Qed.

Lemma loaded_keys_normalized_witness :
  load_dictionary_json (JObject capital_key_file)
  = Ok (<[py "Hello, World!" := [py "H-L/WORLD"]]> ∅)
  /\ normalize_text (py "Hello, World!") = py "Hello, World!"
  /\ exists tr, In tr (translation_texts (JObject capital_key_file))
                /\ py "Hello, World!" = normalize_text tr
                /\ nonspace (py "Hello, World!") = nonspace tr.
Proof.
  assert (Hload : load_dictionary_json (JObject capital_key_file)
                  = Ok (<[py "Hello, World!" := [py "H-L/WORLD"]]> ∅))
    by (vm_compute; reflexivity).
  assert (Hkey : is_Some ((<[py "Hello, World!" := [py "H-L/WORLD"]]> ∅
                           : gmap pystr (list pystr)) !! py "Hello, World!"))
    by (vm_compute; eexists; reflexivity).
  split; [exact Hload|].
  exact (proj1 (loaded_keys_normalized _ _ Hload) _ Hkey).
Defined.

End LoadedKeys.

(* ===================================================================== *)
(** ** The practice session: further results                              *)
(* ===================================================================== *)

Ltac use_good_target :=
  repeat match goal with
         | H : forall t, Some ?x = Some t -> good_target t |- _ =>
             let Hg := fresh "Hg" in
             pose proof (H x eq_refl) as Hg; clear H; unfold good_target in Hg;
             destruct (normalize_text x) eqn:?; [congruence|]
         end.


Section SessionResults.

Implicit Types (s : App) (r : nat) (b t w : pystr) (e : Event).

Lemma tally_ok_handle e s : consistent s -> tally_ok s -> tally_ok (handle e s).
Proof.
  intros Hs Ht. unfold tally_ok in *.
  destruct e; cbn [handle];
    by_cases; split_conj; use_good_target; cbn [length] in *; lia.
Qed.

Lemma tally_ok_start bank dct r : tally_ok (start bank dct r).
Proof.
  unfold start, _autoload_last_files, fresh, tally_ok.
  destruct bank as [lines|]; destruct dct as [raw|];
    try destruct (load_dictionary_json raw); by_cases; split_conj; lia.
Qed.


(** X10: in every session the streak is at most the best streak, the best
    streak at most the number of correct attempts, and that number at most
    the number of correct characters. *)
Theorem streaks_within_counts s :
  reachable s ->
  streak s <= best_streak s
  /\ best_streak s <= correct_attempts s
  /\ correct_attempts s <= total_correct_chars s.
Proof.
  induction 1 as [bank dct r|e s Hr IH]; [apply tally_ok_start|].
  apply tally_ok_handle; [now apply reachable_consistent | exact IH].
Qed.


Lemma streaks_within_counts_witness :
  reachable after_first_token
  /\ streak after_first_token <= best_streak after_first_token
  /\ best_streak after_first_token <= correct_attempts after_first_token
  /\ correct_attempts after_first_token <= total_correct_chars after_first_token.
Proof.
  assert (Hr : reachable after_first_token)
    by (apply reach_handle, reachable_run, reach_start).
  split; [exact Hr|]. exact (streaks_within_counts after_first_token Hr).
Defined.

(** X11: without an active Target, or with a buffer of whitespace only, an
    edit changes the buffer and nothing else, and Return changes nothing;
    Escape empties the buffer and changes nothing else. *)
Theorem blank_input_never_counts s b r :
  reachable s ->
  (active_target s = None \/ forallb isspace b = true ->
   handle (Edit b r) s = set_var_input b s)
  /\ (active_target s = None \/ forallb isspace (var_input s) = true ->
      handle (Return r) s = s)
  /\ handle Escape s = set_var_input [] s.
Proof.
  intros Hs%reachable_consistent. split; [|split].
  - intros [Ha|Hb]; cbn [handle]; unfold on_text_change.
    + replace (active_target (set_var_input b s)) with (active_target s)
        by (now destruct s). now rewrite Ha.
    + apply normalize_text_blank in Hb.
      replace (var_input (set_var_input b s)) with b by (now destruct s).
      rewrite Hb. now destruct (active_target _).
  - intros [Ha|Hb]; cbn [handle]; unfold on_submit.
    + now rewrite Ha.
    + apply normalize_text_blank in Hb. rewrite Hb.
      destruct (active_target s) as [t|] eqn:Ht; [|reflexivity].
      destruct (_pending_advance s); [reflexivity|].
      destruct (decide ([] = normalize_text t)) as [E|]; [|reflexivity].
      pose proof (active_target_good s t Hs Ht) as Hg. now destruct Hg.
  - cbn [handle]. apply on_text_change_empty_buffer. now destruct s.
Qed.

Lemma blank_input_never_counts_witness :
  reachable two_token_quote
  /\ (active_target two_token_quote = None \/ forallb isspace (py "  ") = true ->
      handle (Edit (py "  ") 0) two_token_quote = set_var_input (py "  ") two_token_quote)
  /\ (active_target two_token_quote = None
      \/ forallb isspace (var_input two_token_quote) = true ->
      handle (Return 0) two_token_quote = two_token_quote)
  /\ handle Escape two_token_quote = set_var_input [] two_token_quote.
Proof.
  assert (Hr : reachable two_token_quote) by (apply reachable_run, reach_start).
  split; [exact Hr|]. exact (blank_input_never_counts two_token_quote (py "  ") 0 Hr).
Defined.

Lemma on_bank_word_handle bank e s :
  keeps_bank e = true -> on_bank_word bank s -> on_bank_word bank (handle e s).
Proof.
  intros He (Hm & Hb & w & Hw & Hc). unfold on_bank_word.
  destruct e; try discriminate He; clear He; cbn [handle];
    try (unfold on_load_dict; destruct (load_dictionary_json raw));
    by_cases; split_conj; try reflexivity; try (destruct Hw; fail);
    eauto using random_choice_In.
Qed.

Lemma on_bank_word_run bank events s :
  Forall (fun e => keeps_bank e = true) events ->
  on_bank_word bank s -> on_bank_word bank (run events s).
Proof.
  intros He. revert s. induction He as [|e events He _ IH]; intros s Hs; [exact Hs|].
  cbn [run fold_left]. apply IH. now apply on_bank_word_handle.
Qed.


(** X12: once Use Word Bank is pressed with a bank loaded, the session is in
    bank mode on a word of that bank, and stays so under every sequence of
    events that contains neither a quote restart nor a bank load: edits,
    Return, skips, Escape, session resets, dictionary loads. *)
Theorem bank_mode_target_from_bank s r events :
  word_bank s <> [] ->
  Forall (fun e => keeps_bank e = true) events ->
  on_bank_word (word_bank s) (run events (use_bank_random r s)).
Proof.
  intros Hne He. apply on_bank_word_run; [exact He|].
  unfold on_bank_word. by_cases; split_conj; try reflexivity.
  eauto using random_choice_In.
Qed.

Lemma bank_mode_target_from_bank_witness :
  (word_bank bank_session <> []
   /\ Forall (fun e => keeps_bank e = true)
        [Edit (py "cat") 1; Next 2; Return 0; ResetSession 3])
  /\ on_bank_word (word_bank bank_session)
       (run [Edit (py "cat") 1; Next 2; Return 0; ResetSession 3]
          (use_bank_random 0 bank_session)).
Proof.
  assert (H1 : word_bank bank_session <> []) by (vm_compute; discriminate).
  assert (H2 : Forall (fun e => keeps_bank e = true)
                 [Edit (py "cat") 1; Next 2; Return 0; ResetSession 3])
    by (repeat constructor).
  split; [split; [exact H1 | exact H2]|].
  exact (bank_mode_target_from_bank bank_session 0 _ H1 H2).
Defined.

Lemma restart_quote_fields s :
  quote_tokens (restart_quote s) = split (txt_source s)
  /\ quote_idx (restart_quote s) = 0
  /\ current_word (restart_quote s) = head (split (txt_source s))
  /\ (source_mode (restart_quote s) = source_mode s
      /\ word_bank (restart_quote s) = word_bank s
      /\ _pending_advance (restart_quote s) = _pending_advance s)
  /\ (total_attempts (restart_quote s) = total_attempts s
      /\ correct_attempts (restart_quote s) = correct_attempts s
      /\ total_correct_chars (restart_quote s) = total_correct_chars s
      /\ streak (restart_quote s) = streak s
      /\ best_streak (restart_quote s) = best_streak s)
  /\ var_input (restart_quote s)
     = match split (txt_source s) with [] => var_input s | _ :: _ => [] end.
Proof.
  unfold restart_quote. rewrite tokenize_source_text_split, split_strip.
  generalize (split (txt_source s)) as ws. intros ws.
  by_cases; split_conj; reflexivity.
Qed.


(** X14: Restart Quote takes the words of the source box as the tokens, puts
    the cursor on the first and shows it, or clears the Target when the box
    has no word.  It leaves the mode, the bank, the guard and all five
    counters as they are, and empties the entry only when it shows a
    token. *)
Theorem restart_quote_effect s :
  quote_tokens (restart_quote s) = split (txt_source s)
  /\ quote_idx (restart_quote s) = 0
  /\ current_word (restart_quote s) = head (split (txt_source s))
  /\ (source_mode (restart_quote s) = source_mode s
      /\ word_bank (restart_quote s) = word_bank s
      /\ _pending_advance (restart_quote s) = _pending_advance s)
  /\ (total_attempts (restart_quote s) = total_attempts s
      /\ correct_attempts (restart_quote s) = correct_attempts s
      /\ total_correct_chars (restart_quote s) = total_correct_chars s
      /\ streak (restart_quote s) = streak s
      /\ best_streak (restart_quote s) = best_streak s)
  /\ var_input (restart_quote s)
     = match split (txt_source s) with [] => var_input s | _ :: _ => [] end.
Proof. exact (restart_quote_fields s). Qed.

Lemma on_token_edit ws k w r s :
  is_word w -> on_token ws k s -> ws !! k = Some w ->
  counted_once w s (handle (Edit w r) s)
  /\ quote_tokens (handle (Edit w r) s) = ws
  /\ (k + 1 < length ws -> on_token ws (k + 1) (handle (Edit w r) s))
  /\ (k + 1 = length ws -> exhausted (handle (Edit w r) s)).
Proof.
  intros Hw (Hm & Hp & Ht & Hk & Hc) Hl. rewrite Hl in Hc.
  pose proof (normalize_text_word w Hw) as Hn. destruct Hw as [Hne _].
  cbn [handle]. unfold on_token.
  by_cases; split_conj; arith_tests; try congruence; try lia;
    intros; split_conj; arith_tests; try congruence; try lia;
    match goal with
    | H : normalize_text ?x = _ |- context [normalize_text ?x] => now rewrite H
    end.
Qed.

Lemma type_tokens_from ws n : forall k s,
  Forall is_word ws -> on_token ws k s -> k + n = length ws -> 0 < n ->
  exhausted (run (type_tokens (drop k ws)) s)
  /\ quote_tokens (run (type_tokens (drop k ws)) s) = ws
  /\ total_attempts (run (type_tokens (drop k ws)) s) = total_attempts s + n
  /\ correct_attempts (run (type_tokens (drop k ws)) s) = correct_attempts s + n
  /\ streak (run (type_tokens (drop k ws)) s) = streak s + n
  /\ total_correct_chars (run (type_tokens (drop k ws)) s)
     = total_correct_chars s + length (concat (drop k ws)).
Proof.
  induction n as [|n IH]; intros k s Hws Hon Hlen Hpos; [lia|].
  destruct (ws !! k) as [w|] eqn:Hk; [|apply lookup_ge_None in Hk; lia].
  rewrite (drop_S _ _ _ Hk). cbn [type_tokens List.map run fold_left].
  assert (Hw : is_word w) by exact (Forall_lookup_1 _ _ _ _ Hws Hk).
  destruct (on_token_edit ws k w 0 s Hw Hon Hk) as (Hc & Htok & Hnext & Hend).
  destruct Hc as (Ht & Hc & Hs & _ & Hch).
  rewrite (normalize_text_word w Hw) in Hch.
  destruct n as [|n].
  - rewrite drop_ge by lia. cbn [List.map fold_left concat app].
    rewrite app_nil_r. split; [apply Hend; lia|]. repeat split; try assumption; lia.
  - destruct (IH (k + 1) (handle (Edit w 0) s) Hws) as (Hx & Hq & H1 & H2 & H3 & H4);
      [apply Hnext; lia | lia | lia |].
    replace (S k) with (k + 1) by lia.
    fold (type_tokens (drop (k + 1) ws)). fold (run (type_tokens (drop (k + 1) ws)) (handle (Edit w 0) s)).
    cbn [concat]. rewrite length_app.
    split; [exact Hx|]. repeat split; try assumption; lia.
Qed.

Lemma on_token_use_quote_mode s :
  _pending_advance s = false -> on_token (split (txt_source s)) 0 (use_quote_mode s).
Proof.
  intros Hp. unfold use_quote_mode.
  destruct (restart_quote_fields (set_source_mode quote_seq s))
    as (Ht & Hi & Hc & (Hm & _ & Hg) & _).
  replace (txt_source (set_source_mode quote_seq s)) with (txt_source s) in *
    by (now destruct s).
  unfold on_token. rewrite Ht, Hi, Hc, Hm, Hg.
  repeat split; try (now destruct s). now destruct (split (txt_source s)).
Qed.

(** X13: when Use Source Text is pressed on a source box with at least one
    word and the words are then typed one after the other, the quote ends
    exhausted, having counted one correct attempt per word, a streak as long,
    and as many correct characters as the box has characters outside
    whitespace. *)
Theorem typing_the_quote_completes_it s :
  reachable s -> split (txt_source s) <> [] ->
  exhausted (run (type_tokens (split (txt_source s))) (use_quote_mode s))
  /\ total_attempts (run (type_tokens (split (txt_source s))) (use_quote_mode s))
     = total_attempts s + length (split (txt_source s))
  /\ correct_attempts (run (type_tokens (split (txt_source s))) (use_quote_mode s))
     = correct_attempts s + length (split (txt_source s))
  /\ streak (run (type_tokens (split (txt_source s))) (use_quote_mode s))
     = streak s + length (split (txt_source s))
  /\ total_correct_chars (run (type_tokens (split (txt_source s))) (use_quote_mode s))
     = total_correct_chars s + length (nonspace (txt_source s)).
Proof.
  intros (Hp & _)%reachable_consistent Hne.
  pose proof (on_token_use_quote_mode s Hp) as Hon.
  assert (Hlen : 0 < length (split (txt_source s)))
    by (destruct (split (txt_source s)); [congruence | simpl; lia]).
  destruct (type_tokens_from (split (txt_source s)) (length (split (txt_source s)))
              0 (use_quote_mode s) (split_words _) Hon eq_refl Hlen)
    as (Hx & _ & H1 & H2 & H3 & H4).
  rewrite drop_0 in *. rewrite concat_split in H4.
  assert (Hsame : total_attempts (use_quote_mode s) = total_attempts s
                  /\ correct_attempts (use_quote_mode s) = correct_attempts s
                  /\ streak (use_quote_mode s) = streak s
                  /\ total_correct_chars (use_quote_mode s) = total_correct_chars s).
  { unfold use_quote_mode.
    destruct (restart_quote_fields (set_source_mode quote_seq s))
      as (_ & _ & _ & _ & (E1 & E2 & E3 & E4 & _) & _).
    rewrite E1, E2, E3, E4. now destruct s. }
  destruct Hsame as (E1 & E2 & E3 & E4).
  rewrite H1, H2, H3, H4, E1, E2, E3, E4. auto.
Qed.

Lemma typing_the_quote_completes_it_witness :
  (reachable pasted_quote /\ split (txt_source pasted_quote) <> [])
  /\ exhausted (run (type_tokens (split (txt_source pasted_quote)))
                 (use_quote_mode pasted_quote))
  /\ total_attempts (run (type_tokens (split (txt_source pasted_quote)))
                       (use_quote_mode pasted_quote))
     = total_attempts pasted_quote + length (split (txt_source pasted_quote))
  /\ correct_attempts (run (type_tokens (split (txt_source pasted_quote)))
                         (use_quote_mode pasted_quote))
     = correct_attempts pasted_quote + length (split (txt_source pasted_quote))
  /\ streak (run (type_tokens (split (txt_source pasted_quote)))
               (use_quote_mode pasted_quote))
     = streak pasted_quote + length (split (txt_source pasted_quote))
  /\ total_correct_chars (run (type_tokens (split (txt_source pasted_quote)))
                            (use_quote_mode pasted_quote))
     = total_correct_chars pasted_quote + length (nonspace (txt_source pasted_quote)).
Proof.
  assert (H1 : reachable pasted_quote) by (apply reach_handle, reach_start).
  assert (H2 : split (txt_source pasted_quote) <> []) by (vm_compute; discriminate).
  split; [split; [exact H1 | exact H2]|].
  exact (typing_the_quote_completes_it pasted_quote H1 H2).
Defined.

(** X15: Reset Session zeroes the five counters, lowers the guard and empties
    the entry; it keeps the bank, the dictionary, the tokens, the quote
    cursor and the source box.  With a bank it goes to bank mode on a word of
    the bank, whatever the mode was; without one it clears the Target and
    leaves the mode. *)
Theorem reset_session_effect r s :
  (total_attempts (_reset_session r s) = 0
   /\ correct_attempts (_reset_session r s) = 0
   /\ total_correct_chars (_reset_session r s) = 0
   /\ streak (_reset_session r s) = 0
   /\ best_streak (_reset_session r s) = 0
   /\ _pending_advance (_reset_session r s) = false
   /\ var_input (_reset_session r s) = [])
  /\ (word_bank (_reset_session r s) = word_bank s
      /\ steno_dict (_reset_session r s) = steno_dict s
      /\ quote_tokens (_reset_session r s) = quote_tokens s
      /\ quote_idx (_reset_session r s) = quote_idx s
      /\ txt_source (_reset_session r s) = txt_source s)
  /\ (word_bank s = [] ->
      current_word (_reset_session r s) = None
      /\ source_mode (_reset_session r s) = source_mode s)
  /\ (word_bank s <> [] ->
      source_mode (_reset_session r s) = bank_random
      /\ exists w, In w (word_bank s) /\ current_word (_reset_session r s) = Some w).
Proof.
  by_cases; split_conj; try reflexivity; intros; split_conj; try congruence;
    eauto using random_choice_In.
Qed.


(** X16: a bank file without a usable line leaves the session as it is.  A
    usable one replaces the bank and keeps the counters; an active Target
    stays, with the mode and the entry, and only a session without a Target
    goes to bank mode on a word of the new bank. *)
Theorem on_load_word_bank_effect lines r s :
  (load_word_bank lines = [] -> on_load_word_bank lines r s = s)
  /\ (load_word_bank lines <> [] ->
      word_bank (on_load_word_bank lines r s) = load_word_bank lines
      /\ (total_attempts (on_load_word_bank lines r s) = total_attempts s
          /\ correct_attempts (on_load_word_bank lines r s) = correct_attempts s
          /\ total_correct_chars (on_load_word_bank lines r s) = total_correct_chars s
          /\ streak (on_load_word_bank lines r s) = streak s
          /\ best_streak (on_load_word_bank lines r s) = best_streak s)
      /\ (current_word s <> None ->
          current_word (on_load_word_bank lines r s) = current_word s
          /\ source_mode (on_load_word_bank lines r s) = source_mode s
          /\ var_input (on_load_word_bank lines r s) = var_input s)
      /\ (current_word s = None ->
          source_mode (on_load_word_bank lines r s) = bank_random
          /\ var_input (on_load_word_bank lines r s) = []
          /\ exists w, In w (load_word_bank lines)
                       /\ current_word (on_load_word_bank lines r s) = Some w)).
Proof.
  unfold on_load_word_bank. generalize (load_word_bank lines) as words. intros words.
  by_cases; split_conj; try reflexivity; intros; split_conj; try congruence;
    eauto using random_choice_In.
Qed.


(** X17: a window starts with all counters at zero, the guard down, the entry
    and the token list empty, in bank mode.  Its bank is the usable lines of
    the saved bank file, if there is one, and may be empty; its dictionary is
    the saved one when that loads.  It shows a word of the bank exactly when
    the bank is not empty. *)
Theorem start_effect bank dct r :
  (total_attempts (start bank dct r) = 0
   /\ correct_attempts (start bank dct r) = 0
   /\ total_correct_chars (start bank dct r) = 0
   /\ streak (start bank dct r) = 0
   /\ best_streak (start bank dct r) = 0
   /\ _pending_advance (start bank dct r) = false
   /\ var_input (start bank dct r) = []
   /\ quote_tokens (start bank dct r) = []
   /\ source_mode (start bank dct r) = bank_random)
  /\ word_bank (start bank dct r)
     = match bank with Some lines => load_word_bank lines | None => [] end
  /\ steno_dict (start bank dct r)
     = match dct with
       | Some raw => match load_dictionary_json raw with Ok d => d | ValueError _ => ∅ end
       | None => ∅
       end
  /\ (word_bank (start bank dct r) = [] -> current_word (start bank dct r) = None)
  /\ (word_bank (start bank dct r) <> [] ->
      exists w, In w (word_bank (start bank dct r))
                /\ current_word (start bank dct r) = Some w).
Proof.
  unfold start, _autoload_last_files, fresh.
  destruct bank as [lines|]; [generalize (load_word_bank lines) as words; intros words|];
    (destruct dct as [raw|]; [destruct (load_dictionary_json raw)|]);
    by_cases; split_conj; try reflexivity; intros; split_conj; try congruence;
    eauto using random_choice_In.
Qed.


(** X18: in bank mode without a bank, a matching edit counts the attempt and
    leaves the Target, the buffer, the mode and the empty bank in place, the
    guard down again; Return then counts the Target once more. *)
Theorem unloaded_bank_mode_recounts s t b r :
  reachable s -> source_mode s = bank_random -> word_bank s = [] ->
  active_target s = Some t -> normalize_text b = normalize_text t ->
  counted_once t s (handle (Edit b r) s)
  /\ active_target (handle (Edit b r) s) = Some t
  /\ var_input (handle (Edit b r) s) = b
  /\ _pending_advance (handle (Edit b r) s) = false
  /\ source_mode (handle (Edit b r) s) = bank_random
  /\ word_bank (handle (Edit b r) s) = []
  /\ counted_once t (handle (Edit b r) s) (handle (Return r) (handle (Edit b r) s)).
Proof.
  intros Hs%reachable_consistent Hm Hb Ht Hn.
  pose proof (active_target_good s t Hs Ht) as Hg. unfold good_target in Hg.
  cbn [handle]. by_cases; split_conj; try reflexivity; try lia;
    exfalso;
    match goal with
    | Hne : ?x <> ?y, H1 : ?x = ?z, H2 : ?z = ?y |- _ => apply Hne; now rewrite H1
    end.

Qed.

Lemma unloaded_bank_mode_recounts_witness :
  (reachable restarted_without_bank
   /\ source_mode restarted_without_bank = bank_random
   /\ word_bank restarted_without_bank = []
   /\ active_target restarted_without_bank = Some (py "cat")
   /\ normalize_text (py " cat") = normalize_text (py "cat"))
  /\ counted_once (py "cat") restarted_without_bank
       (handle (Edit (py " cat") 0) restarted_without_bank)
  /\ active_target (handle (Edit (py " cat") 0) restarted_without_bank) = Some (py "cat")
  /\ var_input (handle (Edit (py " cat") 0) restarted_without_bank) = py " cat"
  /\ _pending_advance (handle (Edit (py " cat") 0) restarted_without_bank) = false
  /\ source_mode (handle (Edit (py " cat") 0) restarted_without_bank) = bank_random
  /\ word_bank (handle (Edit (py " cat") 0) restarted_without_bank) = []
  /\ counted_once (py "cat")
       (handle (Edit (py " cat") 0) restarted_without_bank)
       (handle (Return 0) (handle (Edit (py " cat") 0) restarted_without_bank)).
Proof.
  assert (H1 : reachable restarted_without_bank) by (apply reachable_run, reach_start).
  assert (H2 : source_mode restarted_without_bank = bank_random)
    by (vm_compute; reflexivity).
  assert (H3 : word_bank restarted_without_bank = []) by (vm_compute; reflexivity).
  assert (H4 : active_target restarted_without_bank = Some (py "cat"))
    by (vm_compute; reflexivity).
  assert (H5 : normalize_text (py " cat") = normalize_text (py "cat"))
    by (vm_compute; reflexivity).
  split; [repeat split; assumption|].
  exact (unloaded_bank_mode_recounts restarted_without_bank (py "cat") (py " cat") 0
           H1 H2 H3 H4 H5).
Defined.

End SessionResults.

(* ===================================================================== *)
(** ** Words per minute                                                   *)
(* ===================================================================== *)

Section Doubles.

Local Open Scope Z_scope.

(** Rounding to the nearest integer is off by at most a half. *)
Lemma round_half_even_error a b :
  0 < b -> 2 * Z.abs (round_half_even a b * b - a) <= b.
Proof.
  intros Hb. unfold round_half_even. cbv zeta.
  pose proof (Z.div_mod a b ltac:(lia)) as Hdm.
  pose proof (Z.mod_pos_bound a b Hb) as Hr.
  revert Hdm Hr. generalize (a / b) (a mod b). intros q r Hdm Hr. subst a.
  destruct (2 * r ?= b) eqn:E.
  - apply Z.compare_eq in E. destruct (Z.even q).
    + replace (q * b - (b * q + r)) with (- r) by ring. lia.
    + replace ((q + 1) * b - (b * q + r)) with (b - r) by ring. lia.
  - change (2 * r < b) in E.
    replace (q * b - (b * q + r)) with (- r) by ring. lia.
  - change (2 * r > b) in E.
    replace ((q + 1) * b - (b * q + r)) with (b - r) by ring. lia.
Qed.

Lemma round_half_even_nonneg a b : 0 <= a -> 0 < b -> 0 <= round_half_even a b.
Proof.
  intros Ha Hb. unfold round_half_even.
  pose proof (Z.div_pos a b Ha Hb).
  destruct (2 * (a mod b) ?= b); [destruct (Z.even (a / b))| |]; lia.
Qed.

Local Open Scope Q_scope.

Lemma pow2_pos e : 0 < pow2 e.
Proof. apply Qpower_0_lt. reflexivity. Qed.

Lemma pow2_add a b : pow2 (a + b) == pow2 a * pow2 b.
Proof. apply Qpower_plus. discriminate. Qed.

Lemma pow2_opp a : pow2 (- a) == / pow2 a.
Proof. apply Qpower_opp. Qed.

Lemma pow2_Z k : (0 <= k)%Z -> inject_Z (2 ^ k) == pow2 k.
Proof. intros Hk. now rewrite Zpower_Qpower. Qed.

Lemma pow2_le a b : (a <= b)%Z -> pow2 a <= pow2 b.
Proof. intros H. apply Qpower_le_compat_l; [exact H | discriminate]. Qed.

Lemma pow2_lt a b : (a < b)%Z -> pow2 a < pow2 b.
Proof. intros H. apply Qpower_lt_compat_l; [exact H | reflexivity]. Qed.

Lemma pow2_lt_inv a b : pow2 a < pow2 b -> (a < b)%Z.
Proof. intros H. apply (Qpower_lt_compat_l_inv 2); [exact H | reflexivity]. Qed.

Lemma scaled_den_pos d e : (0 < d)%Z -> (0 < scaled_den d e)%Z.
Proof.
  intros Hd. unfold scaled_den. destruct (e <? 0)%Z eqn:E; [exact Hd|].
  apply Z.ltb_ge in E. apply Z.mul_pos_pos; [exact Hd|]. now apply Z.pow_pos_nonneg.
Qed.

Lemma scaled_value n d e :
  (0 < d)%Z ->
  inject_Z (scaled_num n e) / inject_Z (scaled_den d e)
  == inject_Z n / inject_Z d * pow2 (- e).
Proof.
  intros Hd. unfold scaled_num, scaled_den.
  assert (Hd' : ~ inject_Z d == 0).
  { intros H. unfold Qeq in H. simpl in H. lia. }
  destruct (e <? 0)%Z eqn:E.
  - apply Z.ltb_lt in E. rewrite inject_Z_mult, pow2_Z by lia. field. exact Hd'.
  - apply Z.ltb_ge in E. rewrite inject_Z_mult, pow2_Z, pow2_opp by lia.
    pose proof (pow2_pos e). field. split; [lra | exact Hd'].
Qed.

Lemma log2_bounds n :
  (0 < n)%Z -> pow2 (Z.log2 n) <= inject_Z n /\ inject_Z n < pow2 (Z.log2 n + 1).
Proof.
  intros Hn. destruct (Z.log2_spec n Hn) as [H1 H2].
  pose proof (Z.log2_nonneg n).
  rewrite <- !pow2_Z by lia. rewrite <- Zle_Qle, <- Zlt_Qlt.
  replace (Z.log2 n + 1)%Z with (Z.succ (Z.log2 n)) by lia. auto.
Qed.

Lemma inject_Z_pos d : (0 < d)%Z -> 0 < inject_Z d.
Proof. intros H. now rewrite Zlt_Qlt in H. Qed.

Lemma pow2_inv e : pow2 (- e) * pow2 e == 1.
Proof. rewrite <- pow2_add. now replace (- e + e)%Z with 0%Z by lia. Qed.

(** Comparing the scaled fraction with an integer bound. *)
Lemma scaled_lt n d e A :
  (0 < d)%Z ->
  (scaled_num n e < scaled_den d e * A)%Z
  <-> inject_Z n < inject_Z A * pow2 e * inject_Z d.
Proof.
  intros Hd. pose proof (inject_Z_pos d Hd) as Hdq.
  pose proof (pow2_pos e) as He. pose proof (pow2_pos (- e)) as Hm.
  pose proof (pow2_inv e) as Hinv.
  unfold scaled_num, scaled_den. destruct (e <? 0)%Z eqn:E.
  - apply Z.ltb_lt in E. rewrite Zlt_Qlt, !inject_Z_mult, pow2_Z by lia.
    set (nq := inject_Z n) in *. set (dq := inject_Z d) in *. set (aq := inject_Z A).
    split; intros H.
    + assert (H' : nq * pow2 (- e) * pow2 e < dq * aq * pow2 e) by nra.
      assert (E1 : nq * pow2 (- e) * pow2 e == nq) by (rewrite <- Qmult_assoc, Hinv; ring).
      rewrite E1 in H'. lra.
    + assert (H' : nq * pow2 (- e) < aq * pow2 e * dq * pow2 (- e)) by nra.
      assert (E1 : aq * pow2 e * dq * pow2 (- e) == aq * dq * (pow2 (- e) * pow2 e)) by ring.
      rewrite E1, Hinv in H'. lra.
  - apply Z.ltb_ge in E. rewrite Zlt_Qlt, !inject_Z_mult, pow2_Z by lia.
    split; intros H; lra.
Qed.

Lemma scaled_le n d e A :
  (0 < d)%Z ->
  (scaled_den d e * A <= scaled_num n e)%Z
  <-> inject_Z A * pow2 e * inject_Z d <= inject_Z n.
Proof.
  intros Hd. pose proof (scaled_lt n d e A Hd) as H. split.
  - intros H1. apply Qnot_lt_le. intros H2. apply H in H2. lia.
  - intros H1. apply Z.le_ngt. intros H2. apply H in H2. lra.
Qed.

(** The exponent that [ulp_exponent] finds before clamping puts the scaled
    value between 2^52 and 2^53. *)
Lemma ulp_exponent_spec n d :
  (0 < n)%Z -> (0 < d)%Z ->
  exists e1, ulp_exponent n d = Z.max e1 (-1074)
             /\ pow2 (52 + e1) * inject_Z d <= inject_Z n
             /\ inject_Z n < pow2 (53 + e1) * inject_Z d.
Proof.
  intros Hn Hd. unfold ulp_exponent.
  set (e0 := (Z.log2 n - Z.log2 d - 52)%Z).
  destruct (log2_bounds n Hn) as [Hn1 Hn2]. destruct (log2_bounds d Hd) as [Hd1 Hd2].
  pose proof (inject_Z_pos d Hd) as Hdq. pose proof (inject_Z_pos n Hn) as Hnq.
  assert (Hup : inject_Z n < pow2 (53 + e0) * inject_Z d).
  { assert (E : pow2 (Z.log2 n + 1) == pow2 (53 + e0) * pow2 (Z.log2 d)).
    { rewrite <- pow2_add. unfold e0. now replace (53 + (Z.log2 n - Z.log2 d - 52) + Z.log2 d)%Z
        with (Z.log2 n + 1)%Z by lia. }
    pose proof (pow2_pos (53 + e0)). nra. }
  assert (Hlo : pow2 (51 + e0) * inject_Z d < inject_Z n).
  { assert (E : pow2 (Z.log2 n) == pow2 (51 + e0) * pow2 (Z.log2 d + 1)).
    { rewrite <- pow2_add. unfold e0. now replace (51 + (Z.log2 n - Z.log2 d - 52) + (Z.log2 d + 1))%Z
        with (Z.log2 n)%Z by lia. }
    pose proof (pow2_pos (51 + e0)). nra. }
  assert (E52 : inject_Z (2 ^ 52) * pow2 e0 == pow2 (52 + e0))
    by (rewrite pow2_add, pow2_Z by lia; reflexivity).
  destruct (scaled_num n e0 <? scaled_den d e0 * 2 ^ 52)%Z eqn:T.
  - exists (e0 - 1)%Z. split; [reflexivity|].
    apply Z.ltb_lt, (scaled_lt n d e0 (2 ^ 52) Hd) in T. rewrite E52 in T.
    replace (52 + (e0 - 1))%Z with (51 + e0)%Z by lia.
    replace (53 + (e0 - 1))%Z with (52 + e0)%Z by lia. split; lra.
  - exists e0. split; [reflexivity|].
    apply Z.ltb_ge, (scaled_le n d e0 (2 ^ 52) Hd) in T. rewrite E52 in T.
    split; lra.
Qed.

Lemma Qnum_pos q : 0 < q -> (0 < Qnum q)%Z.
Proof. unfold Qlt. simpl. lia. Qed.

Lemma Qmake_to_pos a b : (0 < b)%Z -> a # Z.to_pos b == inject_Z a / inject_Z b.
Proof. intros Hb. rewrite Qmake_Qdiv. now rewrite Z2Pos.id. Qed.

(** A value in the normal range rounds to a double within the relative error
    2^-53. *)
Lemma binary64_normal q :
  pow2 (- 1022) <= q -> q < pow2 1023 ->
  exists r, binary64 q = Some r
            /\ q * (1 - unit_roundoff) <= r /\ r <= q * (1 + unit_roundoff).
Proof.
  intros Hlo Hhi.
  assert (Hq : 0 < q) by (pose proof (pow2_pos (- 1022)); lra).
  unfold binary64. cbv zeta.
  pose proof (Qred_correct q) as Hred.
  assert (Hq' : 0 < Qred q) by now rewrite Hred.
  pose proof (Qnum_pos _ Hq') as Hnum.
  rewrite Z.abs_eq by lia. rewrite (Z.sgn_pos _ Hnum).
  destruct (Z.eqb_spec (Qnum (Qred q)) 0) as [|_]; [lia|].
  set (n := Qnum (Qred q)) in *. set (d := Zpos (Qden (Qred q))).
  assert (Hd : (0 < d)%Z) by reflexivity.
  assert (Hnd : inject_Z n / inject_Z d == q).
  { transitivity (Qred q); [|exact Hred].
    unfold n, d. rewrite <- Qmake_Qdiv. now destruct (Qred q). }
  destruct (ulp_exponent_spec n d Hnum Hd) as (e1 & He & H52 & H53).
  pose proof (inject_Z_pos d Hd) as Hdq.
  assert (Hn : inject_Z n == q * inject_Z d) by (rewrite <- Hnd; field; lra).
  assert (Hq52 : pow2 (52 + e1) <= q) by (rewrite Hn in H52; nra).
  assert (Hq53 : q < pow2 (53 + e1)) by (rewrite Hn in H53; nra).
  assert (He1lo : (- 1074 <= e1)%Z).
  { assert (H : pow2 (- 1022) < pow2 (53 + e1)) by lra. apply pow2_lt_inv in H. lia. }
  assert (He1hi : (e1 <= 970)%Z).
  { assert (H : pow2 (52 + e1) < pow2 1023) by lra. apply pow2_lt_inv in H. lia. }
  rewrite He, Z.max_l by lia. clear He.
  set (sn := scaled_num n e1). set (sd := scaled_den d e1).
  pose proof (scaled_den_pos d e1 Hd) as Hsd. fold sd in Hsd.
  assert (Hsn52 : (sd * 2 ^ 52 <= sn)%Z).
  { apply scaled_le; [exact Hd|]. rewrite pow2_Z, <- pow2_add by lia. exact H52. }
  assert (Hsn53 : (sn < sd * 2 ^ 53)%Z).
  { apply scaled_lt; [exact Hd|]. rewrite pow2_Z, <- pow2_add by lia. exact H53. }
  pose proof (round_half_even_error sn sd Hsd) as Herr.
  set (m := round_half_even sn sd) in *.
  assert (Hm52 : (2 ^ 52 <= m)%Z) by nia.
  assert (Hm53 : (m <= 2 ^ 53)%Z) by nia.
  assert (Hval : (scaled_num m (- e1) < 2 ^ 1024)%Z).
  { unfold scaled_num. destruct (- e1 <? 0)%Z eqn:E.
    - apply Z.ltb_lt in E. replace (- - e1)%Z with e1 by lia.
      assert (H970 : (2 ^ e1 <= 2 ^ 970)%Z) by (apply Z.pow_le_mono_r; lia).
      assert (Hpos : (0 < 2 ^ e1)%Z) by (apply Z.pow_pos_nonneg; lia).
      apply Z.le_lt_trans with (2 ^ 53 * 2 ^ 970)%Z; [|reflexivity].
      apply Z.mul_le_mono_nonneg; lia.
    - apply Z.le_lt_trans with (2 ^ 53)%Z; [exact Hm53 | reflexivity]. }
  destruct (Z.leb_spec (2 ^ 1024) (scaled_num m (- e1))) as [Hov|_]; [lia|].
  eexists. split; [reflexivity|].
  rewrite Qred_correct, Z.mul_1_l.
  pose proof (scaled_den_pos 1 (- e1) ltac:(lia)) as Hsd1.
  rewrite Qmake_to_pos by exact Hsd1.
  rewrite (scaled_value m 1 (- e1)) by lia.
  replace (- - e1)%Z with e1 by lia.
  (* the value is m * 2^e1, and q is (sn / sd) * 2^e1 *)
  pose proof (scaled_value n d e1 Hd) as Hx. fold sn sd in Hx. rewrite Hnd in Hx.
  pose proof (inject_Z_pos sd Hsd) as Hsdq.
  pose proof (pow2_pos e1) as Hp. pose proof (pow2_inv e1) as Hinv.
  assert (Hqx : q == inject_Z sn / inject_Z sd * pow2 e1).
  { rewrite Hx. rewrite <- Qmult_assoc, Hinv. ring. }
  assert (Hhalf : pow2 e1 * (1 # 2) <= q * unit_roundoff).
  { unfold unit_roundoff.
    assert (E : pow2 (52 + e1) * pow2 (- 53) == pow2 e1 * (1 # 2)).
    { rewrite pow2_add. change (pow2 52 * pow2 e1 * pow2 (- 53))
        with (pow2 52 * pow2 e1 * pow2 (- 53)).
      assert (E2 : pow2 52 * pow2 (- 53) == 1 # 2) by reflexivity.
      rewrite <- E2. ring. }
    pose proof (pow2_pos (- 53)). rewrite <- E. nra. }
  assert (Hdiff : - (1 # 2) <= inject_Z m / 1 - inject_Z sn / inject_Z sd
                  /\ inject_Z m / 1 - inject_Z sn / inject_Z sd <= 1 # 2).
  { assert (Hz1 : (2 * sn <= 2 * (m * sd) + sd)%Z) by lia.
    assert (Hz2 : (2 * (m * sd) <= 2 * sn + sd)%Z) by lia.
    rewrite Zle_Qle in Hz1, Hz2.
    rewrite !inject_Z_plus, !inject_Z_mult in Hz1, Hz2.
    change (inject_Z 2) with 2 in *.
    set (mq := inject_Z m) in *. set (sq := inject_Z sd) in *. set (nq := inject_Z sn) in *.
    assert (E : mq / 1 - nq / sq == (mq * sq - nq) / sq) by (field; lra).
    rewrite E. split.
    - apply Qle_shift_div_l; [exact Hsdq|]. lra.
    - apply Qle_shift_div_r; [exact Hsdq|]. lra. }
  destruct Hdiff as [Hd1 Hd2]. clear Hx Hlo Hhi Hq Hq52 Hq53 Hnd Hn Hred Hq'. rewrite Hqx in Hhalf |- *. clear Hqx.
  change (inject_Z 1) with 1.
  set (mq := inject_Z m / 1) in *. set (xq := inject_Z sn / inject_Z sd) in *.
  split; nra.
Qed.


Lemma unit_roundoff_value : unit_roundoff == 1 # 9007199254740992.
Proof. reflexivity. Qed.

Lemma pow2_m1022_small : pow2 (- 1022) <= 1 # 1267650600228229401496703205376.
Proof.
  apply Qle_trans with (pow2 (- 100)); [apply pow2_le; lia | apply Qle_lteq; right; reflexivity].
Qed.

Lemma pow2_1023_large : 2 ^ 100 <= pow2 1023.
Proof. apply (pow2_le 100 1023). lia. Qed.

Lemma binary64_zero q : q == 0 -> binary64 q = Some 0.
Proof.
  intros H. unfold binary64. cbv zeta.
  replace (Qred q) with 0; [reflexivity|].
  symmetry. change 0 with (Qred 0). now apply Qred_complete.
Qed.

(** In the normal range [float_div] returns, within the relative error. *)
Lemma float_div_normal x y :
  0 < y -> pow2 (- 1022) <= x / y -> x / y < pow2 1023 ->
  exists r, float_div x y = Some r
            /\ x / y * (1 - unit_roundoff) <= r /\ r <= x / y * (1 + unit_roundoff).
Proof.
  intros Hy Hlo Hhi. unfold float_div.
  destruct (Qeq_bool y 0) eqn:E; [apply Qeq_bool_eq in E; lra|].
  now apply binary64_normal.
Qed.

Lemma round_float_error r :
  inject_Z (round_float r) - (1 # 2) <= r /\ r <= inject_Z (round_float r) + (1 # 2).
Proof.
  unfold round_float. destruct r as [n d]. cbn [Qnum Qden].
  pose proof (round_half_even_error n (Zpos d) ltac:(lia)) as H.
  set (w := round_half_even n (Zpos d)) in *.
  assert (H1 : (2 * (w * Zpos d) <= 2 * n + Zpos d)%Z) by lia.
  assert (H2 : (2 * n <= 2 * (w * Zpos d) + Zpos d)%Z) by lia.
  rewrite Zle_Qle in H1, H2.
  rewrite !inject_Z_plus, !inject_Z_mult in H1, H2. change (inject_Z 2) with 2 in *.
  rewrite (Qmake_Qdiv n d).
  assert (Hd : 0 < inject_Z (Zpos d)) by (apply inject_Z_pos; lia).
  set (dq := inject_Z (Zpos d)) in *. set (nq := inject_Z n) in *. set (wq := inject_Z w) in *.
  split.
  - apply Qle_shift_div_l; [exact Hd|]. lra.
  - apply Qle_shift_div_r; [exact Hd|]. lra.
Qed.

Lemma round_float_nonneg r : 0 <= r -> (0 <= round_float r)%Z.
Proof.
  intros H. unfold round_float. apply round_half_even_nonneg; [|lia].
  unfold Qle in H. simpl in H. lia.
Qed.

(** Crude bounds from the relative error. *)
Lemma near_crude q r :
  0 <= q -> q * (1 - unit_roundoff) <= r -> r <= q * (1 + unit_roundoff) ->
  q * (1 # 2) <= r /\ r <= q * 2.
Proof.
  intros Hq H1 H2. pose proof unit_roundoff_value as Hu.
  assert (E1 : q * (1 - unit_roundoff) == q - q * unit_roundoff) by ring.
  assert (E2 : q * (1 + unit_roundoff) == q + q * unit_roundoff) by ring.
  rewrite E1 in H1. rewrite E2 in H2. rewrite Hu in H1, H2. split; lra.
Qed.

(** The exact rate is not always reached: 7 characters in 56 seconds are
    1.5 words per minute, which rounds to 2, and the doubles give 1. *)
Example wpm_in_doubles :
  _compute_wpm 56 (set_total_correct_chars 7 fresh) = Some 1%Z
  /\ round_half_even (12 * 7) 56 = 2%Z.
Proof. split; vm_compute; reflexivity. Qed.

(** X19: for an elapsed time from 1 second up to 2^63 and fewer than 2^40
    correct characters, [_compute_wpm] returns without raising, and the
    integer it returns is not negative and differs by less than 1 from the
    exact rate of 12 * characters / seconds words per minute. *)
Theorem compute_wpm_within_one seconds s :
  (1 <= seconds < 2 ^ 63)%Z ->
  (Z.of_nat (total_correct_chars s) < 2 ^ 40)%Z ->
  exists wpm, _compute_wpm seconds s = Some wpm
              /\ (0 <= wpm)%Z
              /\ ((wpm - 1) * seconds < 12 * Z.of_nat (total_correct_chars s))%Z
              /\ (12 * Z.of_nat (total_correct_chars s) < (wpm + 1) * seconds)%Z.
Proof.
  intros [Hs1 Hs2] Hc. unfold _compute_wpm.
  destruct (Z.leb_spec seconds 0) as [|_]; [lia|].
  set (c := Z.of_nat (total_correct_chars s)) in *.
  assert (Hc0 : (0 <= c)%Z) by (unfold c; lia). clearbody c.
  pose proof pow2_m1022_small as Hp. pose proof pow2_1023_large as HP.
  pose proof unit_roundoff_value as Hu.
  assert (HSq : 1 <= inject_Z seconds /\ inject_Z seconds < inject_Z (2 ^ 63)).
  { split; [change 1 with (inject_Z 1); now rewrite <- Zle_Qle | now rewrite <- Zlt_Qlt]. }
  assert (HCq : 0 <= inject_Z c /\ inject_Z c < inject_Z (2 ^ 40)).
  { split; [change 0 with (inject_Z 0); now rewrite <- Zle_Qle | now rewrite <- Zlt_Qlt]. }
  change (inject_Z (2 ^ 63)) with (9223372036854775808 # 1) in HSq.
  change (inject_Z (2 ^ 40)) with (1099511627776 # 1) in HCq.
  assert (HP' : 1267650600228229401496703205376 # 1 <= pow2 1023).
  { eapply Qle_trans; [|exact HP]. apply Qle_lteq. right. reflexivity. }
  clear HP.
  set (S := inject_Z seconds) in *. set (C := inject_Z c) in *.
  assert (Hp0 : 0 < pow2 (- 1022)) by apply pow2_pos.
  (* float(seconds) *)
  destruct (binary64_normal S) as (FS & EFS & HFS1 & HFS2); [lra | lra |].
  unfold float_of_int at 1. fold S. rewrite EFS.
  destruct (near_crude S FS ltac:(lra) HFS1 HFS2) as [HFSa HFSb].
  (* minutes *)
  assert (EX : FS / 60 == FS * (1 # 60)) by (field).
  destruct (float_div_normal FS 60) as (M & EM & HM1 & HM2); [lra | | |].
  { rewrite EX. lra. }
  { rewrite EX. lra. }
  rewrite EM.
  assert (HX0 : 0 <= FS / 60) by (rewrite EX; lra).
  destruct (near_crude (FS / 60) M HX0 HM1 HM2) as [HMa HMb].
  rewrite EX in HMa, HMb.
  assert (HM0 : 0 < M) by lra.
  assert (HMle : Qle_bool M 0 = false).
  { apply not_true_is_false. intros H%Qle_bool_iff. lra. }
  assert (HMne : Qeq_bool M 0 = false).
  { apply not_true_is_false. intros H%Qeq_bool_eq. lra. }
  destruct (Z.eq_dec c 0%Z) as [Hz|Hnz].
  - (* nothing typed yet *)
    rewrite Hz. change (float_of_int 0%Z) with (Some 0).
    change (float_div 0 5) with (Some 0). rewrite HMle.
    unfold float_div. rewrite HMne, binary64_zero by (unfold Qdiv; ring).
    exists 0%Z. repeat split; lia.
  - assert (HC1 : 1 <= C).
    { unfold C. change 1 with (inject_Z 1). rewrite <- Zle_Qle. lia. }
    (* float(total_correct_chars) *)
    destruct (binary64_normal C) as (FC & EFC & HFC1 & HFC2); [lra | lra |].
    unfold float_of_int. fold C. rewrite EFC.
    destruct (near_crude C FC ltac:(lra) HFC1 HFC2) as [HFCa HFCb].
    (* words_equiv *)
    assert (EY : FC / 5 == FC * (1 # 5)) by (field).
    destruct (float_div_normal FC 5) as (W & EW & HW1 & HW2); [lra | | |].
    { rewrite EY. lra. }
    { rewrite EY. lra. }
    rewrite EW, HMle.
    assert (HY0 : 0 <= FC / 5) by (rewrite EY; lra).
    destruct (near_crude (FC / 5) W HY0 HW1 HW2) as [HWa HWb].
    rewrite EY in HWa, HWb.
    (* the rate *)
    destruct (float_div_normal W M) as (R & ER & HR1 & HR2); [exact HM0 | | |].
    { apply Qle_shift_div_l; [exact HM0|].
      assert (HMhi : M <= 9223372036854775808) by lra.
      apply Qle_trans with ((1 # 1267650600228229401496703205376) * 9223372036854775808);
        [|lra].
      apply Qmult_le_compat_nonneg; split; lra. }
    { apply Qlt_shift_div_r; [exact HM0|].
      assert (HMlo : 1 # 240 <= M) by lra.
      apply Qlt_le_trans with (1267650600228229401496703205376 * (1 # 240)); [lra|].
      apply Qmult_le_compat_nonneg; split; lra. }
    rewrite ER. exists (round_float R).
    split; [reflexivity|].
    (* everything in terms of the products R * M and R * S *)
    assert (HT : W / M * M == W) by (field; lra).
    assert (HT0 : 0 < W / M) by (apply Qlt_shift_div_l; [exact HM0 | lra]).
    assert (HR0 : 0 <= R).
    { destruct (near_crude (W / M) R ltac:(lra) HR1 HR2) as [H _]. lra. }
    rewrite Hu in HFS1, HFS2, HM1, HM2, HFC1, HFC2, HW1, HW2, HR1, HR2.
    rewrite EX in HM1, HM2. rewrite EY in HW1, HW2.
    assert (E1 : W / M * (1 - (1 # 9007199254740992)) * M
                 == W * (1 - (1 # 9007199254740992))) by (field; lra).
    assert (E2 : W / M * (1 + (1 # 9007199254740992)) * M
                 == W * (1 + (1 # 9007199254740992))) by (field; lra).
    assert (HRM1 : W * (1 - (1 # 9007199254740992)) <= R * M)
      by (rewrite <- E1; apply Qmult_le_compat_r; lra).
    assert (HRM2 : R * M <= W * (1 + (1 # 9007199254740992)))
      by (rewrite <- E2; apply Qmult_le_compat_r; lra).
    assert (HRS1 : R * (S * (1 # 60) * (1 - (1 # 9007199254740992))
                          * (1 - (1 # 9007199254740992))) <= R * M).
    { rewrite !(Qmult_comm R). apply Qmult_le_compat_r; lra. }
    assert (HRS2 : R * M <= R * (S * (1 # 60) * (1 + (1 # 9007199254740992))
                                   * (1 + (1 # 9007199254740992)))).
    { rewrite !(Qmult_comm R). apply Qmult_le_compat_r; lra. }
    pose proof (round_float_error R) as [Hw1 Hw2].
    pose proof (round_float_nonneg R HR0) as Hw0.
    split; [exact Hw0|].
    set (w := round_float R) in *.
    assert (HwS1 : (inject_Z w - (1 # 2)) * S <= R * S)
      by (apply Qmult_le_compat_r; lra).
    assert (HwS2 : R * S <= (inject_Z w + (1 # 2)) * S)
      by (apply Qmult_le_compat_r; lra).
    split.
    + rewrite Zlt_Qlt, !inject_Z_mult. unfold Z.sub. rewrite inject_Z_plus.
      change (inject_Z (- (1))) with (- (1)). change (inject_Z 12) with 12.
      fold S C. clear HT HR1 HR2 HT0 E1 E2. lra.
    + rewrite Zlt_Qlt, !inject_Z_mult, inject_Z_plus.
      change (inject_Z 1) with 1. change (inject_Z 12) with 12.
      fold S C. clear HT HR1 HR2 HT0 E1 E2. lra.
Qed.

Lemma compute_wpm_within_one_witness :
  ((1 <= 60 < 2 ^ 63)%Z
   /\ (Z.of_nat (total_correct_chars after_both_tokens) < 2 ^ 40)%Z)
  /\ exists wpm, _compute_wpm 60 after_both_tokens = Some wpm
                 /\ (0 <= wpm)%Z
                 /\ ((wpm - 1) * 60
                     < 12 * Z.of_nat (total_correct_chars after_both_tokens))%Z
                 /\ (12 * Z.of_nat (total_correct_chars after_both_tokens)
                     < (wpm + 1) * 60)%Z.
Proof.
  assert (H1 : (1 <= 60 < 2 ^ 63)%Z) by (split; [lia | reflexivity]).
  assert (H2 : (Z.of_nat (total_correct_chars after_both_tokens) < 2 ^ 40)%Z)
    by (vm_compute; reflexivity).
  split; [split; [exact H1 | exact H2]|].
  exact (compute_wpm_within_one 60 after_both_tokens H1 H2).
Defined.

End Doubles.
